(** * Photo_Sorting_Script.py: a shallow embedding and its properties

    The script walks a source tree, works out a date, a device, a category
    and a file name for every media file, moves the file into
    [OUTPUT_DIR/device/[category/]YYYY/MM/DD/], optionally repairs its
    timestamps with exiftool and appends one row per file to a CSV log.

    Python values are modelled as follows.
    - [str] is a list of Unicode code points ([ord] is the identity).
    - [int] is [Z]; the loop counter of the collision search is a [nat].
    - a [pathlib.Path] is the list of its parts; the configured base
      directory is kept as one leading part.
    - the dictionary [seen_hashes] is a [gmap], the set of paths that exist
      on disk a [gset].
    - what the script reads from outside (EXIF tags, digests, modification
      times, the fate of a move, the exit status of exiftool) is carried by
      the directory entry that the walk hands to it.
    - an exception that nothing catches ends the run: it is the [Some e] of
      the second component returned by [sort_media]. *)

From Stdlib Require Import String Ascii NArith ZArith List Lia.
From stdpp Require Import base tactics option list strings gmap sets pretty.

Open Scope Z_scope.

(** ** Python strings *)

Abbreviation char := N.
Abbreviation str := (list char).

(** A literal of the source text. *)
Definition lit (s : string) : str := N_of_ascii <$> list_ascii_of_string s.

Definition chr_in (cs : str) (c : char) : bool := bool_decide (c ∈ cs).

(** The Unicode tables behind [str.lower] and [str.isprintable] are written
    out for U+0000..U+00FF, where [str.lower] works character by
    character; a text in that range is [in_tables] below. Above it a code
    point is taken to be printable and caseless. The real tables differ
    there (U+212A lowers to k, U+200B is not printable), and the statements
    that this touches are made for texts in the range. *)
Definition lower_char (c : char) : char :=
  if ((65 <=? c) && (c <=? 90))%N then (c + 32)%N
  else if ((192 <=? c) && (c <=? 222) && negb (c =? 215))%N then (c + 32)%N
  else c.

Definition lower (s : str) : str := lower_char <$> s.

Definition isprintable (c : char) : bool :=
  if (c <? 32)%N then false
  else if (c <? 127)%N then true
  else if (c <? 161)%N then false
  else negb (c =? 173)%N.

(** [\s] of a [str] pattern: the white space of Unicode. *)
Definition re_space (c : char) : bool :=
  ((9 <=? c) && (c <=? 13) || (28 <=? c) && (c <=? 32) || (c =? 133) || (c =? 160)
   || (c =? 5760) || (8192 <=? c) && (c <=? 8202) || (c =? 8232) || (c =? 8233)
   || (c =? 8239) || (c =? 8287) || (c =? 12288))%N.

(** The decimal digits of Unicode (version 14.0 of its database) come in
    runs of ten, from the digit zero to the digit nine of a script: the
    code points of the zeros. *)
Definition DECIMAL_ZEROS : list N :=
  [
    48; 1632; 1776; 1984; 2406; 2534; 2662; 2790; 2918; 3046; 3174; 3302;
    3430; 3558; 3664; 3792; 3872; 4160; 4240; 6112; 6160; 6470; 6608; 6784;
    6800; 6992; 7088; 7232; 7248; 42528; 43216; 43264; 43472; 43504; 43600;
    44016; 65296; 66720; 68912; 69734; 69872; 69942; 70096; 70384; 70736;
    70864; 71248; 71360; 71472; 71904; 72016; 72784; 73040; 73120; 92768;
    92864; 93008; 120782; 120792; 120802; 120812; 120822; 123200; 123632;
    125264; 130032
  ]%N.

(** [Py_UNICODE_TODECIMAL]: the value of a decimal digit, which [\d] of a
    [str] pattern tests for and [int] reads. *)
Definition decimal (c : char) : option Z :=
  (λ zero, Z.of_N (c - zero)) <$>
  find (λ zero, (zero <=? c) && (c <? zero + 10))%N DECIMAL_ZEROS.

Definition re_digit (c : char) : bool :=
  match decimal c with Some _ => true | None => false end.

(** [s.endswith(suf)], [s.startswith(pre)] and [sub in s]. *)
Definition endswith (s suf : str) : bool := bool_decide (suf `suffix_of` s).
Definition startswith (s pre : str) : bool := bool_decide (pre `prefix_of` s).

Fixpoint contains (sub s : str) : bool :=
  startswith s sub ||
  match s with
  | [] => false
  | _ :: s' => contains sub s'
  end.

(** [s.lstrip(cs)], [s.rstrip(cs)], [s.strip(cs)]. *)
Fixpoint lstrip (cs : str) (s : str) : str :=
  match s with
  | [] => []
  | c :: s' => if chr_in cs c then lstrip cs s' else s
  end.

Definition rstrip (cs : str) (s : str) : str := reverse (lstrip cs (reverse s)).
Definition strip (cs : str) (s : str) : str := rstrip cs (lstrip cs s).

(** [s.rfind(c)] for a one-character needle: the last index, or -1. *)
Fixpoint rfind_from (c : char) (s : str) (i found : Z) : Z :=
  match s with
  | [] => found
  | x :: s' => rfind_from c s' (i + 1) (if (x =? c)%N then i else found)
  end.

Definition rfind (c : char) (s : str) : Z := rfind_from c s 0 (-1).

Definition len (s : str) : Z := Z.of_nat (length s).

(** [s[i:]] and [s[:i]] for an index that is not negative. *)
Definition slice_from (i : Z) (s : str) : str := drop (Z.to_nat i) s.
Definition slice_to (i : Z) (s : str) : str := take (Z.to_nat i) s.

(** [re.sub(r"[...]", "", s)]: every character of the class is deleted. *)
Definition re_sub_delete (cls : char → bool) (s : str) : str :=
  filter (λ c, cls c = false) s.

(** [re.sub(r"X+", rep, s)] for a character class X: every maximal run of
    class characters is replaced by [rep]. [in_run] tells that the previous
    character belonged to the class. *)
Fixpoint re_sub_runs (cls : char → bool) (rep : str) (in_run : bool) (s : str) : str :=
  match s with
  | [] => []
  | c :: s' =>
      if cls c then (if in_run then [] else rep) ++ re_sub_runs cls rep true s'
      else c :: re_sub_runs cls rep false s'
  end.

(** [str(n)] and the format specifications [{n:02d}], [{n:04d}]. *)
Definition str_of_nat (n : nat) : str := lit (pretty n).

Definition zfill (width : nat) (s : str) : str :=
  replicate (width - length s) 48%N ++ s.

Definition format_0d (width : nat) (n : Z) : str :=
  if n <? 0 then 45%N :: zfill (width - 1) (lit (pretty (Z.abs_N n)))
  else zfill width (lit (pretty (Z.to_N n))).

(** [int(s)] on a string of decimal digits, of any script, which is what
    the groups of the date patterns hold; [None] stands for ValueError. *)
Definition int_digits (s : str) : Z :=
  foldl (λ acc c, 10 * acc + default 0 (decimal c)) 0 s.

Definition int (s : str) : option Z :=
  match s with
  | [] => None
  | _ => if forallb re_digit s then Some (int_digits s) else None
  end.

(** The characters that the script deletes from names: the class of
    lines 157 and 223, whose double quote is given by its code point. *)
Definition ILLEGAL_CHARS : str := lit "<>:/\|?*" ++ [34%N].

Definition DOT : char := 46%N.

(** ** pathlib and os.path *)

Abbreviation Path := (list str).

Module pathlib.

(** [Path(s)] for a base directory: one part. *)
Definition of_str (s : str) : Path := [s].

(** [p / c] for a single component [c]. *)
Definition joinpath (p : Path) (c : str) : Path := p ++ [c].

Definition name (p : Path) : str := default [] (last p).

Definition suffix (p : Path) : str :=
  let n := name p in
  let i := rfind DOT n in
  if (0 <? i) && (i <? len n - 1) then slice_from i n else [].

Definition stem (p : Path) : str :=
  let n := name p in
  let i := rfind DOT n in
  if (0 <? i) && (i <? len n - 1) then slice_to i n else n.

(** [str(p)], with the separator of the configured paths. *)
Definition to_str (p : Path) : str :=
  match p with
  | [] => lit "."
  | a :: cs => a ++ concat ((λ c, lit "\" ++ c) <$> cs)
  end.

(** The directories [p.mkdir(parents=True, exist_ok=True)] leaves on disk:
    [p] and every path above it. *)
Definition ancestors_and_self (p : Path) : list Path :=
  (λ n, take (S n) p) <$> seq 0 (length p).

End pathlib.

Infix "//" := pathlib.joinpath (at level 40, left associativity).

Module os_path.

(** [ntpath.splitext]: the split is at the last dot, unless that dot comes
    before a separator or has only dots between the last separator and
    itself. *)
Definition splitext (p : str) : str * str :=
  let sepIndex := Z.max (rfind 92%N p) (rfind 47%N p) in
  let dotIndex := rfind DOT p in
  if (sepIndex <? dotIndex) &&
     existsb (λ c, negb (c =? DOT)%N)
       (slice_to (dotIndex - (sepIndex + 1)) (slice_from (sepIndex + 1) p))
  then (slice_to dotIndex p, slice_from dotIndex p)
  else (p, []).

End os_path.

(** ** datetime *)

Record datetime := mk_datetime {
  year : Z; month : Z; day : Z; hour : Z; minute : Z; second : Z
}.

Global Instance datetime_eq_dec : EqDecision datetime.
Proof. solve_decision. Defined.

Definition is_leap (y : Z) : bool :=
  (y mod 4 =? 0) && (negb (y mod 100 =? 0) || (y mod 400 =? 0)).

Definition days_in_month (y m : Z) : Z :=
  if m =? 2 then (if is_leap y then 29 else 28)
  else if (m =? 4) || (m =? 6) || (m =? 9) || (m =? 11) then 30
  else 31.

(** [datetime(y, m, d)]; [None] stands for the ValueError of a date that is
    not on the calendar. *)
Definition datetime_ymd (y m d : Z) : option datetime :=
  if (1 <=? y) && (y <=? 9999) && (1 <=? m) && (m <=? 12) &&
     (1 <=? d) && (d <=? days_in_month y m)
  then Some (mk_datetime y m d 0 0 0)
  else None.

(** ** Regular expressions

    The fragment of [re] that [FILENAME_DATE_PATTERNS] is written in:
    character classes, concatenation, alternation and named groups. The
    matcher backtracks as Python's does: the left branch of an alternative
    first, and a [?] first with its operand. *)

Module re.

Inductive regex :=
  | Eps
  | Class (cls : char → bool)
  | Cat (r1 r2 : regex)
  | Alt (r1 r2 : regex)
  | Group (name : string) (r : regex).

Definition Chr (c : char) : regex := Class (λ x, (x =? c)%N).
Definition OneOf (cs : str) : regex := Class (chr_in cs).
Definition Opt (r : regex) : regex := Alt r Eps.
Definition Seq (rs : list regex) : regex := foldr Cat Eps rs.
Definition Str (s : str) : regex := Seq (Chr <$> s).

(** The named groups of a match, the last one closed first. *)
Definition groups := list (string * str).

Fixpoint run {A} (r : regex) (s : str) (g : groups)
    (k : str → groups → option A) : option A :=
  match r with
  | Eps => k s g
  | Class cls =>
      match s with
      | c :: s' => if cls c then k s' g else None
      | [] => None
      end
  | Cat r1 r2 => run r1 s g (λ s' g', run r2 s' g' k)
  | Alt r1 r2 =>
      match run r1 s g k with
      | Some x => Some x
      | None => run r2 s g k
      end
  | Group n r1 =>
      run r1 s g (λ s' g', k s' ((n, take (length s - length s') s) :: g'))
  end.

(** [re.match(r, s)]: a match that starts at the first character. *)
Definition match_ (r : regex) (s : str) : option groups :=
  run r s [] (λ _ g, Some g).

(** [re.search(r, s)]: the match at the leftmost position that has one. *)
Fixpoint search (r : regex) (s : str) : option groups :=
  match match_ r s with
  | Some g => Some g
  | None =>
      match s with
      | [] => None
      | _ :: s' => search r s'
      end
  end.

(** [m.group(n)]. *)
Fixpoint group (g : groups) (n : string) : option str :=
  match g with
  | [] => None
  | (n', w) :: g' => if decide (n' = n) then Some w else group g' n
  end.

(** [matches r w g g']: [r] can consume exactly the word [w], and doing so
    turns the groups [g] into [g']. *)
Inductive matches : regex → str → groups → groups → Prop :=
  | matches_eps g : matches Eps [] g g
  | matches_class cls c g : cls c = true → matches (Class cls) [c] g g
  | matches_cat r1 r2 w1 w2 g g1 g2 :
      matches r1 w1 g g1 → matches r2 w2 g1 g2 →
      matches (Cat r1 r2) (w1 ++ w2) g g2
  | matches_alt_l r1 r2 w g g' : matches r1 w g g' → matches (Alt r1 r2) w g g'
  | matches_alt_r r1 r2 w g g' : matches r2 w g g' → matches (Alt r1 r2) w g g'
  | matches_group n r w g g' :
      matches r w g g' → matches (Group n r) w g ((n, w) :: g').

Fixpoint groupless (r : regex) : bool :=
  match r with
  | Eps | Class _ => true
  | Cat r1 r2 | Alt r1 r2 => groupless r1 && groupless r2
  | Group _ _ => false
  end.

End re.

(** ** Filename date extraction (lines 124-146) *)

Definition d2 : re.regex := re.Seq [re.Class re_digit; re.Class re_digit].
Definition y20 : re.regex :=
  re.Seq [re.Chr 50%N; re.Chr 48%N; re.Class re_digit; re.Class re_digit].
Definition sep : re.regex := re.OneOf (lit "-_.").

Definition FILENAME_DATE_PATTERNS : list re.regex :=
  [ re.Seq [re.Group "y" y20; sep; re.Group "m" d2; sep; re.Group "d" d2];
    re.Seq [re.Group "d" d2; sep; re.Group "m" d2; sep; re.Group "y" y20];
    re.Seq [re.Group "y" y20; re.Group "m" d2; re.Group "d" d2];
    re.Seq [re.Group "d" d2; re.Group "m" d2; re.Group "y" y20];
    re.Seq [re.Alt (re.Str (lit "IMG")) (re.Str (lit "VID"));
            re.Opt (re.OneOf (lit "-_"));
            re.Group "y" y20; re.Group "m" d2; re.Group "d" d2] ].

(** The body of the [try] of lines 138-143; [None] when it raises. *)
Definition date_of_match (m : re.groups) : option datetime :=
  y ← re.group m "y" ≫= int;
  mo ← re.group m "m" ≫= int;
  d ← re.group m "d" ≫= int;
  datetime_ymd y mo d.

Fixpoint parse_date_loop (patterns : list re.regex) (name : str) : option datetime :=
  match patterns with
  | [] => None
  | pattern :: rest =>
      match re.search pattern name with
      | Some m =>
          match date_of_match m with
          | Some date => Some date
          | None => parse_date_loop rest name
          end
      | None => parse_date_loop rest name
      end
  end.

Definition parse_date_from_filename (filename : str) : option datetime :=
  let name := (os_path.splitext filename).1 in
  parse_date_loop FILENAME_DATE_PATTERNS name.

(** ** Device cleaning (lines 152-164) *)

Definition DEFAULT : str := lit "default".

Definition clean_device_string (s : str) : str :=
  match s with
  | [] => DEFAULT
  | _ =>
      let s := filter (λ ch, (32 ≤ ch ∧ ch ≤ 126)%N) s in
      let s := re_sub_delete (chr_in ILLEGAL_CHARS) s in
      let s := re_sub_runs re_space (lit "_") false s in
      let s := strip (lit "_") (re_sub_runs (chr_in (lit "_")) (lit "_") false s) in
      if bool_decide (lower s ∈ [ []; lit "default"; lit "default_";
                                  lit "_default"; lit "default_default" ])
      then DEFAULT
      else s
  end.

(** ** Configuration (lines 18-23) *)

Definition SOURCE_DIR : str := lit "D:\Sorting_script\output_v3\to_sort".
Definition OUTPUT_DIR : str := lit "D:\Sorting_script\output_v3\sorted".

Definition IMAGE_EXT : list str :=
  [lit ".jpg"; lit ".jpeg"; lit ".png"; lit ".tiff"; lit ".heic"; lit ".bmp"].
Definition VIDEO_EXT : list str :=
  [lit ".mp4"; lit ".mov"; lit ".avi"; lit ".mkv"; lit ".3gp"; lit ".mpg"].

(** ** EXIF reading (lines 170-193) *)

Inductive xp_value :=
  | XPBytes (b : list N)
  | XPStr (s : str).

(** What [Image.open(path).getexif()] gives for one file. [exif_date] is the
    [date] of lines 175-181: tag 36867, or tag 306 when that one is missing
    or empty, parsed by [strptime]; [None] when there is no such tag or the
    parse raises. The other fields are the tags 271, 272, 270, 514, 0x5012. *)
Record Exif := mk_exif {
  exif_date : option datetime;
  Make : option str;
  Model : option str;
  ImageDescription : option str;
  DocumentName : option str;
  XPFilename : option xp_value
}.

Definition str_eqb (a b : str) : bool := bool_decide (a = b).

Definition get_exif_data (img : option Exif) : option datetime * str :=
  match img with
  | None => (None, DEFAULT)
  | Some exif =>
      let date := exif_date exif in
      let make := clean_device_string (default [] (Make exif)) in
      let model := clean_device_string (default [] (Model exif)) in
      let device :=
        if str_eqb make DEFAULT || str_eqb model DEFAULT then DEFAULT
        else strip (lit "_") (make ++ lit "_" ++ model) in
      (date, clean_device_string device)
  end.

(** ** Best date: EXIF, then file name, then file system (lines 199-213) *)

Definition get_best_date (path : Path) (img : option Exif) (mtime : datetime)
    : datetime * str :=
  let ext := lower (pathlib.suffix path) in
  let '(exif_date, device) :=
    if bool_decide (ext ∈ IMAGE_EXT) then get_exif_data img else (None, DEFAULT) in
  match exif_date with
  | Some d => (d, device)
  | None =>
      match parse_date_from_filename (pathlib.name path) with
      | Some filename_date => (filename_date, device)
      | None => (mtime, device)
      end
  end.

(** ** File name from metadata (lines 219-263) *)

Definition clean_filename_text (text : str) : str :=
  match text with
  | [] => []
  | _ =>
      let text := filter (λ ch, isprintable ch = true) text in
      let text := re_sub_delete (chr_in ILLEGAL_CHARS) text in
      strip (lit " .") text
  end.

(** [bytes.decode("utf-16le")]; [None] stands for UnicodeDecodeError. *)
Fixpoint utf16le_units (b : list N) : option (list N) :=
  match b with
  | [] => Some []
  | [_] => None
  | lo :: hi :: b' => cons (lo + 256 * hi)%N <$> utf16le_units b'
  end.

Definition is_high_surrogate (w : N) : bool := ((55296 <=? w) && (w <=? 56319))%N.
Definition is_low_surrogate (w : N) : bool := ((56320 <=? w) && (w <=? 57343))%N.

Fixpoint utf16_points (u : list N) : option str :=
  match u with
  | [] => Some []
  | w :: u' =>
      if is_high_surrogate w then
        match u' with
        | w2 :: u'' =>
            if is_low_surrogate w2
            then cons (65536 + (w - 55296) * 1024 + (w2 - 56320))%N <$> utf16_points u''
            else None
        | [] => None
        end
      else if is_low_surrogate w then None
      else cons w <$> utf16_points u'
  end.

Definition decode_utf16le (b : list N) : option str :=
  utf16le_units b ≫= utf16_points.

(** The truth value of an optional tag: present and not empty. *)
Definition nonempty (o : option str) : option str :=
  match o with
  | Some (c :: s) => Some (c :: s)
  | _ => None
  end.

Definition xp_nonempty (o : option xp_value) : option xp_value :=
  match o with
  | Some (XPBytes (c :: b)) => Some (XPBytes (c :: b))
  | Some (XPStr (c :: s)) => Some (XPStr (c :: s))
  | _ => None
  end.

Definition title_from (tag : option str) : option str :=
  nonempty tag ≫= λ v, nonempty (Some (clean_filename_text v)).

Definition get_metadata_filename (path : Path) (img : option Exif) : str :=
  match img with
  | None => pathlib.name path
  | Some exif =>
      match title_from (ImageDescription exif) with
      | Some name => name ++ pathlib.suffix path
      | None =>
      match title_from (DocumentName exif) with
      | Some name => name ++ pathlib.suffix path
      | None =>
      match xp_nonempty (XPFilename exif) with
      | Some xpfn =>
          let decoded :=
            match xpfn with
            | XPBytes b => rstrip [0%N] <$> decode_utf16le b
            | XPStr s => Some s
            end in
          match decoded ≫= λ d, nonempty (Some (clean_filename_text d)) with
          | Some name =>
              if negb (endswith (lower name) (lower (pathlib.suffix path)))
              then name ++ pathlib.suffix path
              else name
          | None => pathlib.name path
          end
      | None => pathlib.name path
      end end end
  end.

(** ** Category detection (lines 280-292) *)

Definition SPECIAL_KEYWORDS : list str :=
  [ lit "whatsapp"; lit "screenshot"; lit "scan";
    lit "instagram"; lit "facebook"; lit "messenger";
    lit "snapchat"; lit "tiktok"; lit "wechat"; lit "telegram" ].

Fixpoint first_keyword (words : list str) (name root : str) : str :=
  match words with
  | [] => []
  | word :: rest =>
      if contains word name || contains word root then word
      else first_keyword rest name root
  end.

Definition detect_special_category (path : Path) (root : str) : str :=
  let name := lower (pathlib.name path) in
  let root := lower root in
  first_keyword SPECIAL_KEYWORDS name root.

(** ** Folder creation (lines 298-309) *)

Definition mkdir_parents (p : Path) (disk : gset Path) : gset Path :=
  disk ∪ list_to_set (pathlib.ancestors_and_self p).

Definition date_dir (base_dir device : str) (date : datetime) (category : str) : Path :=
  let year := format_0d 4 (year date) in
  let month := format_0d 2 (month date) in
  let day := format_0d 2 (day date) in
  match category with
  | [] => pathlib.of_str base_dir // device // year // month // day
  | _ => pathlib.of_str base_dir // device // category // year // month // day
  end.

Definition make_date_path (base_dir device : str) (date : datetime) (category : str)
    (disk : gset Path) : gset Path * Path :=
  let target := date_dir base_dir device date category in
  (mkdir_parents target disk, target).

(** ** The world the script acts on *)

Inductive exn :=
  | OSError (msg : str).

(** A line of standard output. *)
Inductive event :=
  | Moving (src dst : Path)
  | Correcting (dst : Path) (date : datetime)
  | SortingCompleted
  | MovingLeftover (src dst : Path)
  | FailedLeftover (src : Path) (e : exn).

(** A cell handed to [csv.writer]. *)
Inductive cell :=
  | CStr (s : str)
  | CPath (p : Path)
  | CDate (d : datetime)
  | CBool (b : bool).

Definition row := list cell.

(** [disk] holds the paths that exist, files and directories alike;
    [log_file] is the content of LOG_FILE, [None] while it does not exist;
    [exiftool_calls] records each run of exiftool with [-AllDates]. *)
Record world := mk_world {
  disk : gset Path;
  log_file : option (list row);
  exiftool_calls : list (Path * datetime);
  stdout : list event
}.

Definition set_disk (d : gset Path) (w : world) : world :=
  mk_world d (log_file w) (exiftool_calls w) (stdout w).
Definition set_log_file (l : option (list row)) (w : world) : world :=
  mk_world (disk w) l (exiftool_calls w) (stdout w).
Definition print (e : event) (w : world) : world :=
  mk_world (disk w) (log_file w) (exiftool_calls w) (stdout w ++ [e]).

(** One file of [os.walk(SOURCE_DIR)]: the directories between SOURCE_DIR
    and the file, its name, and what the outside world answers about it.
    [e_move_error] is the exception [shutil.move] raises for it, if any;
    [e_exiftool_ok] tells whether exiftool, once run on it, exits with 0. *)
Record entry := mk_entry {
  e_rel : list str;
  e_file : str;
  e_image : option Exif;
  e_mtime : datetime;
  e_digest : str;
  e_move_error : option exn;
  e_exiftool_ok : bool
}.

Definition entry_root_path (e : entry) : Path := pathlib.of_str SOURCE_DIR ++ e_rel e.
Definition entry_root (e : entry) : str := pathlib.to_str (entry_root_path e).
Definition entry_path (e : entry) : Path := entry_root_path e // e_file e.

(** ** Timestamp repair (lines 60-79) *)

Definition apply_correct_dates (EXIFTOOL_EXISTS : bool) (filepath : Path)
    (date : datetime) (exit_ok : bool) (w : world) : world * bool :=
  if negb EXIFTOOL_EXISTS then (w, false)
  else
    (mk_world (disk w) (log_file w) (exiftool_calls w ++ [(filepath, date)]) (stdout w),
     exit_ok).

(** ** The CSV log (lines 86-118) *)

Definition HEADER : row :=
  CStr <$> [ lit "Source"; lit "Destination"; lit "Device"; lit "Category";
             lit "Date"; lit "Hash"; lit "Duplicate"; lit "TimestampFixed" ].

(** [open(LOG_FILE, "a")]: the file is created empty when it is missing. *)
Definition open_append (f : option (list row)) : list row := default [] f.

Definition init_log (f : option (list row)) : option (list row) :=
  let file_exists := bool_decide (is_Some f) in
  let f := Some (open_append f) in
  if negb (bool_decide (is_Some f))
  then Some [HEADER]
  else f.

(** A Python value passed where a truth value is expected. *)
Inductive pyval :=
  | PyBool (b : bool)
  | PyStr (s : str).

Definition truthy (v : pyval) : bool :=
  match v with
  | PyBool b => b
  | PyStr s => negb (bool_decide (s = []))
  end.

Definition log_move (src dest : Path) (device category : str) (date : datetime)
    (filehash : str) (duplicate : bool) (timestamp_fixed : pyval)
    (f : option (list row)) : option (list row) :=
  Some (open_append f ++
        [[ CPath src; CPath dest; CStr device; CStr category; CDate date;
           CStr filehash; CBool duplicate;
           CStr (if truthy timestamp_fixed then lit "YES" else lit "NO") ]]).

(** ** Collision search (lines 441-451 and 394-404)

    [while target_file.exists(): target_file = candidate(count); count += 1].
    [fuel] bounds the number of tests of [exists]; [None] means the bound
    was reached. *)
Fixpoint while_exists (fuel : nat) (disk : gset Path) (candidate : nat → Path)
    (target_file : Path) (count : nat) : option Path :=
  match fuel with
  | O => None
  | S fuel' =>
      if bool_decide (target_file ∈ disk)
      then while_exists fuel' disk candidate (candidate count) (S count)
      else Some target_file
  end.

Definition dup_name (stem suffix : str) : str := stem ++ lit "_DUP" ++ suffix.
Definition dup_name_n (stem suffix : str) (count : nat) : str :=
  stem ++ lit "_DUP_" ++ str_of_nat count ++ suffix.

(** Lines 441-451 of [sort_media]. *)
Definition resolve_target (disk : gset Path) (target_dir target_file : Path)
    (duplicate : bool) : option Path :=
  if bool_decide (target_file ∈ disk) then
    let stem := pathlib.stem target_file in
    let suffix := pathlib.suffix target_file in
    let target_file :=
      if negb duplicate then target_dir // dup_name stem suffix else target_file in
    while_exists (size disk + 2) disk
      (λ count, target_dir // dup_name_n stem suffix count) target_file 1
  else Some target_file.

(** Lines 394-404 of [move_remaining_non_media_files]. *)
Definition resolve_leftover (disk : gset Path) (root_dest dest : Path) : option Path :=
  if bool_decide (dest ∈ disk) then
    let stem := pathlib.stem dest in
    let suffix := pathlib.suffix dest in
    while_exists (size disk + 2) disk
      (λ count, root_dest // dup_name_n stem suffix count)
      (root_dest // dup_name stem suffix) 1
  else Some dest.

(** [shutil.move(src, dst)] onto a path that does not exist. *)
Definition shutil_move (src dst : Path) (err : option exn) (w : world) : world + exn :=
  match err with
  | Some e => inr e
  | None => inl (set_disk (disk w ∖ {[src]} ∪ {[dst]}) w)
  end.

(** ** Main sorting logic (lines 418-472) *)

(** Why a run stops early: an exception nobody caught, or the bound of
    [while_exists]. *)
Inductive halt :=
  | Raise (e : exn)
  | OutOfFuel.

Definition is_media (e : entry) : bool :=
  bool_decide (lower (pathlib.suffix (entry_path e)) ∈ IMAGE_EXT ++ VIDEO_EXT).

Definition entry_base_name (e : entry) : str :=
  let path := entry_path e in
  let ext := lower (pathlib.suffix path) in
  let new_name := get_metadata_filename path (e_image e) in
  if endswith (lower new_name) ext then new_name else new_name ++ ext.

Definition entry_date_device (e : entry) : datetime * str :=
  get_best_date (entry_path e) (e_image e) (e_mtime e).

Definition entry_category (e : entry) : str :=
  detect_special_category (entry_path e) (entry_root e).

Definition entry_target_dir (e : entry) : Path :=
  let '(date, device) := entry_date_device e in
  date_dir OUTPUT_DIR device date (entry_category e).

(** The body of the inner [for] of [sort_media] for one file. *)
Definition sort_file (EXIFTOOL_EXISTS : bool) (e : entry)
    (st : world * gmap str Path) : world * gmap str Path * option halt :=
  let '(w, seen_hashes) := st in
  let path := entry_path e in
  if negb (is_media e) then (w, seen_hashes, None) else
  let '(date, device) := entry_date_device e in
  let category := entry_category e in
  let base_name := entry_base_name e in
  let filehash := e_digest e in
  let duplicate := bool_decide (is_Some (seen_hashes !! filehash)) in
  let '(d, target_dir) := make_date_path OUTPUT_DIR device date category (disk w) in
  let w := set_disk d w in
  match resolve_target (disk w) target_dir (target_dir // base_name) duplicate with
  | None => (w, seen_hashes, Some OutOfFuel)
  | Some target_file =>
      let w := print (Moving path target_file) w in
      match shutil_move path target_file (e_move_error e) w with
      | inr err => (w, seen_hashes, Some (Raise err))
      | inl w =>
          let w := print (Correcting target_file date) w in
          let '(w, timestamp_fixed) :=
            apply_correct_dates EXIFTOOL_EXISTS target_file date (e_exiftool_ok e) w in
          let w :=
            set_log_file
              (log_move path target_file device category date filehash duplicate
                 (PyStr (lit "false")) (log_file w)) w in
          (w, <[filehash := target_file]> seen_hashes, None)
      end
  end.

Fixpoint sort_loop (EXIFTOOL_EXISTS : bool) (files : list entry)
    (st : world * gmap str Path) : world * gmap str Path * option halt :=
  match files with
  | [] => (st, None)
  | e :: files' =>
      match sort_file EXIFTOOL_EXISTS e st with
      | (st', None) => sort_loop EXIFTOOL_EXISTS files' st'
      | (st', Some h) => (st', Some h)
      end
  end.

Definition sort_media (EXIFTOOL_EXISTS : bool) (files : list entry) (w : world)
    : world * option halt :=
  let seen_hashes : gmap str Path := ∅ in
  match sort_loop EXIFTOOL_EXISTS files (w, seen_hashes) with
  | (w, _, None) => (print SortingCompleted w, None)
  | (w, _, Some h) => (w, Some h)
  end.

(** ** Leftover files (lines 372-412) *)

Definition move_leftover (e : entry) (w : world) : world * option halt :=
  let root_dest := pathlib.of_str OUTPUT_DIR in
  let src := entry_path e in
  let dest := root_dest // pathlib.name src in
  match resolve_leftover (disk w) root_dest dest with
  | None => (w, Some OutOfFuel)
  | Some dest =>
      let w := print (MovingLeftover src dest) w in
      let w := set_disk (mkdir_parents root_dest (disk w)) w in
      match shutil_move src dest (e_move_error e) w with
      | inl w => (w, None)
      | inr err => (print (FailedLeftover src err) w, None)
      end
  end.

Fixpoint move_remaining_non_media_files (files : list entry) (w : world)
    : world * option halt :=
  match files with
  | [] => (w, None)
  | e :: files' =>
      match move_leftover e w with
      | (w, None) => move_remaining_non_media_files files' w
      | (w, Some h) => (w, Some h)
      end
  end.

(** ** The run (lines 478-483)

    [media] is what the walk of [sort_media] meets, [leftovers] what the walk
    of [move_remaining_non_media_files] meets afterwards. *)
Definition main (EXIFTOOL_EXISTS : bool) (media leftovers : list entry) (w : world)
    : world * option halt :=
  let w := set_log_file (init_log (log_file w)) w in
  match sort_media EXIFTOOL_EXISTS media w with
  | (w, Some h) => (w, Some h)
  | (w, None) => move_remaining_non_media_files leftovers w
  end.

(** The destinations announced on standard output by [sort_media]. *)
Definition moved_to (out : list event) : list Path :=
  omap (λ ev, match ev with Moving _ dst => Some dst | _ => None end) out.

(** The last cell of a log row. *)
Definition timestamp_fixed_cell (r : row) : option cell := last r.

(** ** Junk cleanup (lines 315-355) *)

Definition JUNK_EXACT : list str :=
  [ lit ".ds_store"; lit "desktop.ini"; lit "thumbs.db";
    lit "._thumbs"; lit ".nomedia"; lit ".picasa"; lit ".picasaoriginals" ].

(** One file of [os.walk(base_path)]: the directories between SOURCE_DIR
    and the file, its name, and the exception [unlink] raises for it, if
    any, other than that of a file that is not there. *)
Record walked := mk_walked {
  f_rel : list str;
  f_file : str;
  f_unlink_error : option exn
}.

Definition walked_path (f : walked) : Path :=
  (pathlib.of_str SOURCE_DIR ++ f_rel f) // f_file f.

(** A line printed by [delete_junk_files]. *)
Inductive deleted :=
  | Deleted (fp : Path)
  | DeletedTHM (fp : Path).

(** [try: fp.unlink(); print(...)  except: pass]. *)
Definition try_unlink (fp : Path) (err : option exn) (line : deleted)
    (st : gset Path * list deleted) : gset Path * list deleted :=
  match err with
  | Some _ => st
  | None =>
      if bool_decide (fp ∈ st.1) then (st.1 ∖ {[fp]}, st.2 ++ [line]) else st
  end.

(** The body of the inner [for] of [delete_junk_files]. *)
Definition delete_junk_file (f : walked) (st : gset Path * list deleted)
    : gset Path * list deleted :=
  let lower := lower (f_file f) in
  let fp := walked_path f in
  if bool_decide (lower ∈ JUNK_EXACT) then
    try_unlink fp (f_unlink_error f) (Deleted fp) st
  else
    let st :=
      if startswith lower (lit "thumbs.db")
      then try_unlink fp (f_unlink_error f) (Deleted fp) st else st in
    if endswith lower (lit ".thm")
    then try_unlink fp (f_unlink_error f) (DeletedTHM fp) st else st.

Definition delete_junk_files (files : list walked) (st : gset Path * list deleted)
    : gset Path * list deleted :=
  foldl (λ st f, delete_junk_file f st) st files.

(** ** Vocabulary of the statements *)

(** A character that [clean_device_string] lets through. *)
Definition device_char (c : char) : Prop := (32 ≤ c ∧ c ≤ 126)%N.

(** The text holds, somewhere, the digits 2 and 0 followed by two more
    digits. *)
Fixpoint has_year20 (s : str) : bool :=
  match s with
  | [] => false
  | _ :: s' =>
      match s with
      | a :: b :: c :: d :: _ => (a =? 50)%N && (b =? 48)%N && re_digit c && re_digit d
      | _ => false
      end || has_year20 s'
  end.

(** The name YYYY-05-06.jpg of the year [y], and the test of what
    [parse_date_from_filename] makes of it. *)
Definition iso_name (y : Z) : str := format_0d 4 y ++ lit "-05-06.jpg".

Definition check_iso_year (y : Z) : bool :=
  bool_decide (parse_date_from_filename (iso_name y)
               = if (2000 <=? y) && (y <=? 2099)
                 then Some (mk_datetime y 5 6 0 0 0) else None).

Definition year_token (w : str) : Prop :=
  ∃ c d, re_digit c = true ∧ re_digit d = true ∧ w = [50; 48; c; d]%N.

(** A pattern whose group [y] is always a [year_token] of the match. *)
Definition year20_pattern (p : re.regex) : Prop :=
  ∀ w g, re.matches p w [] g →
    ∃ y, year_token y ∧ re.group g "y" = Some y ∧ ∃ pre post, w = pre ++ y ++ post.

(** What holds between two files of a run: the destinations announced so
    far differ from one another, are on disk, and lie under OUTPUT_DIR. *)
Definition placed_inv (w : world) : Prop :=
  NoDup (moved_to (stdout w)) ∧
  Forall (λ t, t ∈ disk w ∧ head t = Some OUTPUT_DIR) (moved_to (stdout w)).

(** A log row whose TimestampFixed cell reads YES. *)
Definition says_yes (r : row) : Prop :=
  timestamp_fixed_cell r = Some (CStr (lit "YES")).

(** The last cell of the last row of the log. *)
Definition last_timestamp_fixed (w : world) : option cell :=
  match log_file w with
  | Some rows => match last rows with Some r => timestamp_fixed_cell r | None => None end
  | None => None
  end.

(** ** Sample data *)

Definition noon : datetime := mk_datetime 2024 1 2 12 0 0.

(** A file without EXIF data whose name carries no date. *)
Definition plain_file (rel : list str) (file digest : str) (err : option exn) : entry :=
  mk_entry rel file None noon digest err true.

Definition empty_world : world := mk_world ∅ None [] [].

(** Where [plain_file]s go: OUTPUT_DIR\default\2024\01\02. *)
Definition sample_dir : Path := date_dir OUTPUT_DIR DEFAULT noon [].

Definition photo_taken : gset Path := {[ sample_dir // lit "photo.jpg" ]}.

Definition denied : exn := OSError (lit "Permission denied").

Definition file_a : entry := plain_file [] (lit "a.jpg") (lit "h1") None.
Definition file_a_denied : entry := plain_file [] (lit "a.jpg") (lit "h1") (Some denied).
Definition file_b : entry := plain_file [] (lit "b.jpg") (lit "h2") None.

Definition a_and_b : world :=
  mk_world {[ entry_path file_a; entry_path file_b ]} None [] [].

Definition photo_1 : entry := plain_file [lit "one"] (lit "photo.jpg") (lit "h1") None.
Definition photo_2 : entry := plain_file [lit "two"] (lit "photo.jpg") (lit "h2") None.
Definition photo_3 : entry := plain_file [lit "three"] (lit "photo.jpg") (lit "h3") None.

(** EXIF data that hold one title and nothing else. *)
Definition described (title : str) : Exif :=
  mk_exif None None None (Some title) None None.
Definition documented (title : str) : Exif :=
  mk_exif None None None None (Some title) None.
Definition xp_named (title : str) : Exif :=
  mk_exif None None None None None (Some (XPStr title)).

Definition described_holiday : entry :=
  mk_entry [] (lit "IMG1.jpg") (Some (described (lit "holiday.jpg")))
    noon (lit "h1") None true.

(** ** Vocabulary of the further properties *)

(** A text within the range [lower_char] is written out for. *)
Definition in_tables (s : str) : Prop := Forall (λ c, (c ≤ 255)%N) s.

(** No two neighbours of [s] are both the character [u]. *)
Fixpoint no_double (u : char) (s : str) : bool :=
  match s with
  | [] => true
  | a :: t =>
      match t with
      | b :: _ => negb ((a =? u)%N && (b =? u)%N)
      | [] => true
      end && no_double u t
  end.

(** A character the script lets into a device name: printable ASCII that
    is neither a space nor one of [ILLEGAL_CHARS]. *)
Definition plain_char (c : char) : bool :=
  (32 <? c)%N && (c <=? 126)%N && negb (chr_in ILLEGAL_CHARS c).

(** A text that starts and ends with none of the characters [cs]. *)
Definition trimmed (cs : str) (s : str) : Prop :=
  (∀ c, head s = Some c → chr_in cs c = false) ∧
  (∀ c, last s = Some c → chr_in cs c = false).

(** The shape of a device name: not empty, made of [plain_char]s, with
    single underscores only, none of them at either end. *)
Definition device_name_ok (d : str) : Prop :=
  d ≠ [] ∧ forallb plain_char d = true ∧ no_double 95 d = true ∧ trimmed (lit "_") d.

(** The shape of a cleaned title: printable characters outside
    [ILLEGAL_CHARS], with no space or dot at either end. *)
Definition title_ok (t : str) : Prop :=
  forallb (λ c, isprintable c && negb (chr_in ILLEGAL_CHARS c)) t = true ∧
  trimmed (lit " .") t.

(** Lines 156-159 of [clean_device_string], before the test of line 161. *)
Definition device_steps (s : str) : str :=
  strip (lit "_")
    (re_sub_runs (chr_in (lit "_")) (lit "_") false
       (re_sub_runs re_space (lit "_") false
          (re_sub_delete (chr_in ILLEGAL_CHARS)
             (filter (λ ch, (32 ≤ ch ∧ ch ≤ 126)%N) s)))).

(** The files whose move went through, with the date exiftool is then
    asked to write: the "Correcting date" lines of standard output. *)
Definition corrected (out : list event) : list (Path * datetime) :=
  omap (λ ev, match ev with Correcting dst date => Some (dst, date) | _ => None end) out.

(** The log after [rows] were appended to it one by one. *)
Definition append_rows (f : option (list row)) (rows : list row) : option (list row) :=
  match rows with
  | [] => f
  | _ => Some (open_append f ++ rows)
  end.

(** The cells Destination, Hash and Duplicate of a log row. *)
Definition row_destination (r : row) : option cell := r !! 1%nat.
Definition row_hash (r : row) : option cell := r !! 5%nat.
Definition row_duplicate (r : row) : option cell := r !! 6%nat.

(** Every row is flagged as a duplicate exactly when its digest is one of
    [earlier] or the digest of a row before it. *)
Fixpoint flags_ok (earlier : list str) (rows : list row) : Prop :=
  match rows with
  | [] => True
  | r :: rest =>
      ∃ h, row_hash r = Some (CStr h) ∧
           row_duplicate r = Some (CBool (bool_decide (h ∈ earlier))) ∧
           flags_ok (h :: earlier) rest
  end.

(** The sources announced by the leftover pass, and those it failed on. *)
Definition leftover_sources (out : list event) : list Path :=
  omap (λ ev, match ev with MovingLeftover src _ => Some src | _ => None end) out.
Definition leftover_failures (out : list event) : list (Path * exn) :=
  omap (λ ev, match ev with FailedLeftover src e => Some (src, e) | _ => None end) out.
Definition leftover_flat (ev : event) : Prop :=
  match ev with
  | MovingLeftover _ dst => ∃ name, dst = pathlib.of_str OUTPUT_DIR // name
  | FailedLeftover _ _ => True
  | _ => False
  end.

(** A name [delete_junk_files] goes after. *)
Definition is_junk (name : str) : bool :=
  bool_decide (lower name ∈ JUNK_EXACT) ||
  startswith (lower name) (lit "thumbs.db") || endswith (lower name) (lit ".thm").

(** A directory name of [width] digits that reads as the number [n]. *)
Definition digits_of (width : nat) (n : Z) (s : str) : Prop :=
  length s = width ∧ int s = Some n.

(** The test behind the layout of the date directories: [format_0d] gives
    [width] characters that [int] reads back. *)
Definition check_format (width : nat) (n : Z) : bool :=
  bool_decide (length (format_0d width n) = width) &&
  bool_decide (int (format_0d width n) = Some n).

(** The day [y]-[m]-[d] written the five ways that
    [FILENAME_DATE_PATTERNS] provides for. *)
Definition dated_names (y m d : Z) : list str :=
  let Y := format_0d 4 y in
  let M := format_0d 2 m in
  let D := format_0d 2 d in
  [ Y ++ lit "-" ++ M ++ lit "-" ++ D ++ lit ".jpg";
    D ++ lit "." ++ M ++ lit "." ++ Y ++ lit ".jpg";
    Y ++ M ++ D ++ lit ".jpg";
    D ++ M ++ Y ++ lit ".jpg";
    lit "IMG_" ++ Y ++ M ++ D ++ lit ".jpg" ].

(** The twentieth of month [m] of year [y] written day first, without
    separators: a text that starts like a year. *)
Definition twentieth (y m : Z) : str := format_0d 2 20 ++ format_0d 2 m ++ format_0d 4 y.

(** The tests behind the round trip of dates through file names. *)
Definition check_round_trip (y m d : Z) : bool :=
  negb (d <=? days_in_month y m) ||
  forallb (λ name, bool_decide (parse_date_from_filename name
                                = Some (mk_datetime y m d 0 0 0)))
    (dated_names y m d).

Definition check_swallowed (y m : Z) : bool :=
  match FILENAME_DATE_PATTERNS !! 2%nat with
  | Some third =>
      match re.search third (twentieth y m) with
      | Some g => bool_decide (date_of_match g = None)
      | None => false
      end
  | None => false
  end.

(** ** Further sample data *)

Definition canon_80d : Exif :=
  mk_exif None (Some (lit "Canon")) (Some (lit "EOS 80D")) None None None.

Definition photo_1_copy : entry := plain_file [lit "two"] (lit "photo.jpg") (lit "h1") None.

Definition thumbs_db : walked := mk_walked [] (lit "Thumbs.db") None.

(** * Properties *)

(** ** The model on the examples of the specification *)

Example lit_codes : lit "a.b" = [97; 46; 98]%N.
Proof. reflexivity. Qed.

Example suffix_examples :
  pathlib.suffix [lit "out"; lit "photo.jpg"] = lit ".jpg" ∧
  pathlib.stem [lit "out"; lit "photo.jpg"] = lit "photo" ∧
  pathlib.suffix [lit ".bashrc"] = [] ∧
  pathlib.suffix [lit "name."] = [] ∧
  os_path.splitext (lit "..jpg") = (lit "..jpg", []) ∧
  os_path.splitext (lit "IMG_1.tar.gz") = (lit "IMG_1.tar", lit ".gz").
Proof. vm_compute. repeat split. Qed.

Example format_examples :
  format_0d 4 2023 = lit "2023" ∧ format_0d 2 4 = lit "04" ∧
  format_0d 2 12 = lit "12" ∧ str_of_nat 10 = lit "10".
Proof. vm_compute. repeat split. Qed.

Example parse_examples :
  parse_date_from_filename (lit "IMG_20230405_101112.jpg") = Some (mk_datetime 2023 4 5 0 0 0) ∧
  parse_date_from_filename (lit "photo-05-04-2023.png") = Some (mk_datetime 2023 4 5 0 0 0) ∧
  parse_date_from_filename (lit "20231399_VID-20240102.mp4") = Some (mk_datetime 2024 1 2 0 0 0) ∧
  parse_date_from_filename (lit "randomname.jpg") = None ∧
  parse_date_from_filename (lit "1999-05-06.jpg") = None.
Proof. vm_compute. repeat split. Qed.

Example clean_examples :
  clean_device_string (lit "Canon  EOS/Rebel*") = lit "Canon_EOSRebel" ∧
  clean_device_string (lit "  ") = lit "default" ∧
  clean_device_string (lit "_Default_") = lit "default" ∧
  clean_device_string [233; 8364]%N = lit "default".
Proof. vm_compute. repeat split. Qed.

(** ** Strings *)

Lemma lit_inj : Inj (=) (=) lit.
Proof.
  intros a b H. unfold lit in H.
  assert (Inj (=) (=) N_of_ascii) as Hinj.
  { intros x y Hxy.
    rewrite <- (ascii_N_embedding x), <- (ascii_N_embedding y). by rewrite Hxy. }
  apply (list_fmap_eq_inj N_of_ascii) in H; [|exact Hinj].
  rewrite <- (string_of_list_ascii_of_string a),
          <- (string_of_list_ascii_of_string b).
  by rewrite H.
Qed.

Lemma str_of_nat_inj : Inj (=) (=) str_of_nat.
Proof. intros a b H. apply lit_inj in H. by apply (inj pretty) in H. Qed.

Lemma Forall_lstrip (P : char → Prop) cs s : Forall P s → Forall P (lstrip cs s).
Proof.
  induction 1 as [|c s Hc Hs IH]; simpl; [constructor|].
  destruct (chr_in cs c); [done | by constructor].
Qed.

Lemma Forall_strip (P : char → Prop) cs s : Forall P s → Forall P (strip cs s).
Proof.
  intros H. unfold strip, rstrip.
  apply Forall_reverse, Forall_lstrip, Forall_reverse, Forall_lstrip, H.
Qed.

Lemma Forall_re_sub_runs (P : char → Prop) cls rep b s :
  Forall P rep → Forall P s → Forall P (re_sub_runs cls rep b s).
Proof.
  intros Hrep Hs. revert b.
  induction Hs as [|c s Hc Hs IH]; intros b; simpl; [constructor|].
  destruct (cls c).
  - apply Forall_app. split; [by destruct b | apply IH].
  - constructor; [done | apply IH].
Qed.

Lemma Forall_filter_keep (P : char → Prop) (Q : char → Prop)
    `{∀ x, Decision (Q x)} (s : str) :
  Forall P s → Forall P (filter Q s).
Proof.
  rewrite !Forall_forall. intros HP x Hx.
  apply list_elem_of_filter in Hx as [_ Hx]. by apply HP.
Qed.

Lemma filter_none (Q : char → Prop) `{∀ x, Decision (Q x)} (s : str) :
  Forall (λ x, ¬ Q x) s → filter Q s = [].
Proof.
  induction 1 as [|c s Hc Hs IH]; [done|].
  by rewrite filter_cons_False.
Qed.

Lemma Forall_re_sub_delete (P : char → Prop) cls s :
  Forall P s → Forall P (re_sub_delete cls s).
Proof. apply Forall_filter_keep. Qed.

Lemma device_char_DEFAULT : Forall device_char DEFAULT.
Proof. unfold device_char. apply (bool_decide_unpack _). by vm_compute. Qed.

(** ** Device cleaning *)

(** C10. Every character of a string returned by [clean_device_string] has
    a code between 32 and 126, and a string made only of characters outside
    ASCII (code above 127) is turned into "default". *)
Theorem clean_device_string_ascii (s : str) :
  Forall device_char (clean_device_string s) ∧
  (Forall (λ ch, (127 < ch)%N) s → clean_device_string s = lit "default").
Proof.
  split.
  - destruct s as [|c s]; [apply device_char_DEFAULT|].
    unfold clean_device_string.
    case_bool_decide; [apply device_char_DEFAULT|].
    apply Forall_strip, Forall_re_sub_runs; [by repeat constructor|].
    apply Forall_re_sub_runs; [by repeat constructor|].
    apply Forall_re_sub_delete.
    apply Forall_forall. intros x Hx. by apply list_elem_of_filter in Hx as [Hx _].
  - intros Hs. destruct s as [|c s]; [done|].
    unfold clean_device_string.
    assert (filter (λ ch : char, (32 ≤ ch ∧ ch ≤ 126)%N) (c :: s) = []) as ->; [|done].
    apply filter_none. eapply Forall_impl; [exact Hs|].
    simpl. intros x Hx. lia.
Qed.

Lemma clean_device_string_ascii_witness :
  Forall device_char (clean_device_string [233; 8364]%N) ∧
  clean_device_string [233; 8364]%N = lit "default".
Proof.
  split.
  - apply (clean_device_string_ascii [233; 8364]%N).
  - apply (clean_device_string_ascii [233; 8364]%N).
    repeat constructor; lia.
Defined.

(** ** Paths *)

Lemma name_joinpath (p : Path) (c : str) : pathlib.name (p // c) = c.
Proof. unfold pathlib.name, pathlib.joinpath. by rewrite last_snoc. Qed.

Global Instance joinpath_inj (p : Path) : Inj (=) (=) (pathlib.joinpath p).
Proof. intros a b H. apply app_inv_head in H. by injection H. Qed.

Global Instance dup_name_n_inj (stem suffix : str) : Inj (=) (=) (dup_name_n stem suffix).
Proof.
  intros a b H. unfold dup_name_n in H.
  do 2 apply app_inv_head in H. apply app_inv_tail in H.
  by apply str_of_nat_inj.
Qed.

Lemma dup_name_not_numbered (stem suffix : str) (n : nat) :
  dup_name stem suffix ≠ dup_name_n stem suffix n.
Proof.
  unfold dup_name, dup_name_n. intros H.
  apply app_inv_head in H. apply (f_equal length) in H.
  rewrite !length_app in H. simpl in H. lia.
Qed.

(** ** The collision search *)

Section collision_search.
Context (disk : gset Path) (candidate : nat → Path).

(** What a search that ends has found: the path it started from when that
    one is free, else the first free candidate from [count] on. *)
Lemma while_exists_Some fuel target count p :
  while_exists fuel disk candidate target count = Some p →
  ((target ∉ disk) ∧ p = target) ∨
  (target ∈ disk ∧ ∃ k, (count ≤ k)%nat ∧ p = candidate k ∧ (candidate k ∉ disk) ∧
     ∀ j, (count ≤ j < k)%nat → candidate j ∈ disk).
Proof.
  revert target count.
  induction fuel as [|fuel IH]; intros target count; simpl; [done|].
  case_bool_decide as Hin; [|intros [= <-]; by left].
  intros Hp. right. split; [done|].
  destruct (IH _ _ Hp) as [[Hfree ->]|[Hbusy (k & Hk & -> & Hfree & Hbelow)]].
  - exists count. repeat split; [lia | done | intros j Hj; lia].
  - exists k. repeat split; [lia | done |].
    intros j Hj. destruct (decide (j = count)) as [->|]; [done|].
    apply Hbelow. lia.
Qed.

Lemma while_exists_fresh fuel target count p :
  while_exists fuel disk candidate target count = Some p → p ∉ disk.
Proof.
  intros Hp. apply while_exists_Some in Hp.
  destruct Hp as [[? ->]|[_ (k & _ & -> & ? & _)]]; done.
Qed.

Lemma while_exists_reaches k fuel target count :
  candidate (count + k)%nat ∉ disk → (k + 2 ≤ fuel)%nat →
  is_Some (while_exists fuel disk candidate target count).
Proof.
  revert fuel target count.
  induction k as [|k IH]; intros fuel target count Hfree Hfuel.
  - destruct fuel as [|[|fuel]]; [lia..|]. simpl.
    case_bool_decide; [|done].
    rewrite Nat.add_0_r in Hfree. by rewrite bool_decide_eq_false_2.
  - destruct fuel as [|fuel]; [lia|]. simpl.
    case_bool_decide; [|done].
    apply IH; [|lia]. by replace (S count + k)%nat with (count + S k)%nat by lia.
Qed.

Context `{!Inj (=) (=) candidate}.

(** A disk holds finitely many paths, so one of the first [size disk + 1]
    candidates is free. *)
Lemma free_candidate count :
  ∃ k, (k ≤ size disk)%nat ∧ candidate (count + k)%nat ∉ disk.
Proof.
  set (l := seq count (S (size disk))).
  destruct (decide (Forall (λ n, candidate n ∈ disk) l)) as [Hall|Hsome].
  - exfalso.
    assert (list_to_set (C := gset Path) (candidate <$> l) ⊆ disk) as Hsub.
    { intros p Hp. apply elem_of_list_to_set, list_elem_of_fmap in Hp as (n & -> & Hn).
      by eapply Forall_forall in Hall. }
    apply subseteq_size in Hsub.
    rewrite size_list_to_set in Hsub.
    + rewrite length_fmap in Hsub. unfold l in Hsub. rewrite length_seq in Hsub. lia.
    + apply NoDup_fmap_2; [done | apply NoDup_seq].
  - apply not_Forall_Exists in Hsome; [|apply _].
    apply Exists_exists in Hsome as (n & Hn & Hfree).
    apply elem_of_seq in Hn. exists (n - count)%nat. split; [lia|].
    by replace (count + (n - count))%nat with n by lia.
Qed.

(** The search ends within [size disk + 2] tests. *)
Lemma while_exists_total fuel target count :
  (size disk + 2 ≤ fuel)%nat →
  is_Some (while_exists fuel disk candidate target count).
Proof.
  intros Hfuel. destruct (free_candidate count) as (k & Hk & Hfree).
  eapply while_exists_reaches; [exact Hfree | lia].
Qed.

End collision_search.

Lemma resolve_target_total disk target_dir target_file duplicate :
  is_Some (resolve_target disk target_dir target_file duplicate).
Proof.
  unfold resolve_target. case_bool_decide; [|done].
  apply while_exists_total; [|lia].
  intros a b Hab. apply (inj _) in Hab. by apply (inj _) in Hab.
Qed.

Lemma resolve_target_fresh disk target_dir target_file duplicate p :
  resolve_target disk target_dir target_file duplicate = Some p → p ∉ disk.
Proof.
  unfold resolve_target. case_bool_decide.
  - apply while_exists_fresh.
  - by intros [= <-].
Qed.

(** C4 (as the code has it). When the desired path exists, a file whose
    digest was seen before is never offered stem_DUP.ext: it gets the first
    free one of stem_DUP_1.ext, stem_DUP_2.ext, ...; stem_DUP.ext is tried
    first, and taken when free, only for a digest not seen before. *)
Theorem known_duplicate_numbering (disk : gset Path) (target_dir : Path)
    (base_name : str) (duplicate : bool) :
  target_dir // base_name ∈ disk →
  let stem := pathlib.stem (target_dir // base_name) in
  let suffix := pathlib.suffix (target_dir // base_name) in
  let first := target_dir // dup_name stem suffix in
  let numbered := λ k, target_dir // dup_name_n stem suffix k in
  let chosen := resolve_target disk target_dir (target_dir // base_name) duplicate in
  (duplicate = false ∧ (first ∉ disk) ∧ chosen = Some first) ∨
  ((duplicate = true ∨ first ∈ disk) ∧
   ∃ k, (1 ≤ k)%nat ∧ chosen = Some (numbered k) ∧ (numbered k ∉ disk) ∧
        numbered k ≠ first ∧ ∀ j, (1 ≤ j < k)%nat → numbered j ∈ disk).
Proof.
  intros Hin stem suffix first numbered chosen.
  assert (∀ k, numbered k ≠ first) as Hne.
  { intros k Hk. unfold numbered, first in Hk.
    apply (inj (pathlib.joinpath target_dir)) in Hk.
    symmetry in Hk. by eapply dup_name_not_numbered. }
  assert (∀ target, target ∈ disk →
    while_exists (size disk + 2) disk numbered target 1 = chosen →
    ∃ k, (1 ≤ k)%nat ∧ chosen = Some (numbered k) ∧ (numbered k ∉ disk) ∧
         numbered k ≠ first ∧ ∀ j, (1 ≤ j < k)%nat → numbered j ∈ disk) as Hloop.
  { intros target Htarget Hchosen.
    destruct (resolve_target_total disk target_dir (target_dir // base_name) duplicate)
      as [p Hp].
    fold chosen in Hp. rewrite Hp in Hchosen.
    apply while_exists_Some in Hchosen as [[? _]|[_ (k & Hk & -> & Hfree & Hbelow)]];
      [done|].
    exists k. by repeat split. }
  assert (chosen = while_exists (size disk + 2) disk numbered
            (if negb duplicate then first else target_dir // base_name) 1) as Hc.
  { unfold chosen, resolve_target. by rewrite bool_decide_eq_true_2. }
  destruct duplicate; simpl in Hc.
  - right. split; [by left|]. by apply (Hloop (target_dir // base_name)).
  - destruct (decide (first ∈ disk)) as [Hfirst|Hfirst].
    + right. split; [by right|]. by apply (Hloop first).
    + left. repeat split; [done|]. rewrite Hc.
      replace (size disk + 2)%nat with (S (S (size disk))) by lia. simpl.
      by rewrite bool_decide_eq_false_2.
Qed.

Lemma known_duplicate_numbering_witness :
  ∃ k, (1 ≤ k)%nat ∧
    resolve_target photo_taken sample_dir (sample_dir // lit "photo.jpg") true
    = Some (sample_dir // dup_name_n (lit "photo") (lit ".jpg") k).
Proof.
  destruct (known_duplicate_numbering photo_taken sample_dir (lit "photo.jpg") true)
    as [(Hdup & _)|(_ & k & Hk & Hchosen & _)].
  - apply elem_of_singleton. reflexivity.
  - discriminate Hdup.
  - exists k. split; [exact Hk | exact Hchosen].
Defined.

(** C4 (as stated) fails: photo.jpg exists, the digest was seen before and
    photo_DUP.jpg is free, yet the file goes to photo_DUP_1.jpg. *)
Lemma known_duplicate_skips_DUP :
  resolve_target photo_taken sample_dir (sample_dir // lit "photo.jpg") true
  = Some (sample_dir // lit "photo_DUP_1.jpg") ∧
  sample_dir // lit "photo_DUP.jpg" ∉ photo_taken.
Proof.
  split; [by vm_compute|].
  apply (bool_decide_unpack _). by vm_compute.
Qed.

(** ** Category detection *)

Lemma first_keyword_elem words name root :
  first_keyword words name root = [] ∨ first_keyword words name root ∈ words.
Proof.
  induction words as [|word rest IH]; simpl; [by left|].
  destruct (contains word name || contains word root).
  - right. apply list_elem_of_here.
  - destruct IH as [IH|IH]; [by left | right; by apply list_elem_of_further].
Qed.

Lemma first_keyword_cons word rest name root :
  first_keyword (word :: rest) name root
  = if contains word name || contains word root then word
    else first_keyword rest name root.
Proof. done. Qed.

(** C6 (as the code has it). The name IMG-20230101-WA0005.jpg holds none of
    the keywords, so the file is put in "whatsapp" exactly when the path of
    the directory it lies in contains "whatsapp", whatever the case of its
    letters. *)
Theorem whatsapp_export_category (parent : Path) (root : str) :
  detect_special_category (parent // lit "IMG-20230101-WA0005.jpg") root = lit "whatsapp"
  ↔ contains (lit "whatsapp") (lower root) = true.
Proof.
  unfold detect_special_category. rewrite name_joinpath.
  set (name := lower (lit "IMG-20230101-WA0005.jpg")).
  unfold SPECIAL_KEYWORDS. rewrite first_keyword_cons.
  assert (contains (lit "whatsapp") name = false) as -> by (by vm_compute).
  rewrite orb_false_l.
  destruct (contains (lit "whatsapp") (lower root)) eqn:Hroot; [done|].
  split; [|done]. intros Hcat. exfalso.
  match type of Hcat with first_keyword ?rest _ _ = _ =>
    destruct (first_keyword_elem rest name (lower root)) as [Hnone|Helem] end.
  - rewrite Hcat in Hnone. discriminate Hnone.
  - rewrite Hcat in Helem. revert Helem. apply (bool_decide_unpack _). by vm_compute.
Qed.

Lemma whatsapp_export_category_witness :
  detect_special_category
    (pathlib.of_str SOURCE_DIR // lit "WhatsApp Images" // lit "IMG-20230101-WA0005.jpg")
    (lit "D:\Sorting_script\output_v3\to_sort\WhatsApp Images")
  = lit "whatsapp".
Proof.
  apply (whatsapp_export_category (pathlib.of_str SOURCE_DIR // lit "WhatsApp Images")
           (lit "D:\Sorting_script\output_v3\to_sort\WhatsApp Images")).
  vm_compute. reflexivity.
Defined.

(** C6 (as stated) fails: directly under SOURCE_DIR the file gets no
    category at all. *)
Lemma whatsapp_export_uncategorised :
  detect_special_category (pathlib.of_str SOURCE_DIR // lit "IMG-20230101-WA0005.jpg")
    SOURCE_DIR = [] ∧
  detect_special_category (pathlib.of_str SOURCE_DIR // lit "IMG-20230101-WA0005.jpg")
    SOURCE_DIR ≠ lit "whatsapp".
Proof. split; by vm_compute. Qed.

(** ** File name from metadata *)

(** C7 fails on the code for two of the three titles. For IMG1.jpg the
    description holiday.jpg already ends with the extension, yet lines 236
    and 243 append it again; only the XPFilename branch (line 255) looks
    first. *)
Theorem metadata_title_extension_unchecked :
  let path := pathlib.of_str SOURCE_DIR // lit "IMG1.jpg" in
  endswith (lower (clean_filename_text (lit "holiday.jpg"))) (lower (pathlib.suffix path))
  = true ∧
  get_metadata_filename path (Some (described (lit "holiday.jpg"))) = lit "holiday.jpg.jpg" ∧
  get_metadata_filename path (Some (documented (lit "holiday.jpg"))) = lit "holiday.jpg.jpg" ∧
  get_metadata_filename path (Some (xp_named (lit "holiday.jpg"))) = lit "holiday.jpg" ∧
  entry_base_name described_holiday = lit "holiday.jpg.jpg".
Proof. by vm_compute. Qed.

(** ** The CSV log *)

Lemma init_log_open_append (f : option (list row)) : init_log f = Some (open_append f).
Proof. done. Qed.

(** A log that is there comes out of [init_log] as it went in. *)
Lemma init_log_present (rows : list row) : init_log (Some rows) = Some rows.
Proof. done. Qed.

(** C5 fails on the code when the log is missing: [open(LOG_FILE, "a")] on
    line 89 creates the file before line 92 asks whether it exists, so the
    header of lines 95-104 is never written and the new log is empty. *)
Theorem init_log_absent_no_header :
  init_log None = Some [] ∧ init_log None ≠ Some [HEADER].
Proof. by split. Qed.

(** ** Filename date extraction *)

Lemma run_sound {A} r s g (k : str → re.groups → option A) x :
  re.run r s g k = Some x →
  ∃ w s' g', s = w ++ s' ∧ re.matches r w g g' ∧ k s' g' = Some x.
Proof.
  revert s g k. induction r as [|cls|r1 IH1 r2 IH2|r1 IH1 r2 IH2|n r IH]; intros s g k; simpl.
  - intros Hk. exists [], s, g. repeat split; [constructor | done].
  - destruct s as [|c s]; [done|]. destruct (cls c) eqn:Hc; [|done].
    intros Hk. exists [c], s, g. repeat split; [by constructor | done].
  - intros H. apply IH1 in H as (w1 & s1 & g1 & -> & H1 & H).
    apply IH2 in H as (w2 & s2 & g2 & -> & H2 & H).
    exists (w1 ++ w2), s2, g2. rewrite <- (assoc_L (++)). repeat split; [|done].
    by econstructor.
  - destruct (re.run r1 s g k) eqn:H1.
    + intros [= ->]. apply IH1 in H1 as (w & s' & g' & -> & H1 & H).
      exists w, s', g'. repeat split; [by apply re.matches_alt_l | done].
    + intros H2. apply IH2 in H2 as (w & s' & g' & -> & H2 & H).
      exists w, s', g'. repeat split; [by apply re.matches_alt_r | done].
  - intros H. apply IH in H as (w & s' & g' & -> & H1 & H).
    rewrite length_app, Nat.add_sub, take_app_length in H.
    exists w, s', ((n, w) :: g'). repeat split; [by constructor | done].
Qed.

Lemma search_sound r s g :
  re.search r s = Some g → ∃ pre w post, s = pre ++ w ++ post ∧ re.matches r w [] g.
Proof.
  induction s as [|c s IH]; simpl.
  - destruct (re.match_ r []) eqn:Hm; [|done]. intros [= ->].
    apply run_sound in Hm as (w & s' & g' & Hs & Hm & [= ->]).
    exists [], w, s'. by split.
  - destruct (re.match_ r (c :: s)) eqn:Hm.
    + intros [= ->]. apply run_sound in Hm as (w & s' & g' & Hs & Hm & [= ->]).
      exists [], w, s'. by split.
    + intros H. apply IH in H as (pre & w & post & -> & H).
      exists (c :: pre), w, post. by split.
Qed.

Lemma infix_here (y rest : str) : ∃ pre post, y ++ rest = pre ++ y ++ post.
Proof. by exists [], rest. Qed.

Lemma infix_later (x l y : str) :
  (∃ pre post, l = pre ++ y ++ post) → ∃ pre post, x ++ l = pre ++ y ++ post.
Proof. intros (pre & post & ->). exists (x ++ pre), post. by rewrite (assoc_L (++)). Qed.

Ltac invert_matches :=
  repeat match goal with
  | H : re.matches re.Eps _ _ _ |- _ => inversion H; subst; clear H
  | H : re.matches (re.Class _) _ _ _ |- _ => inversion H; subst; clear H
  | H : re.matches (re.Cat _ _) _ _ _ |- _ => inversion H; subst; clear H
  | H : re.matches (re.Alt _ _) _ _ _ |- _ => inversion H; subst; clear H
  | H : re.matches (re.Group _ _) _ _ _ |- _ => inversion H; subst; clear H
  end.

Lemma matches_y20 w g g' :
  re.matches y20 w g g' → year_token w ∧ g' = g.
Proof.
  unfold y20, re.Chr. cbn [re.Seq foldr]. intros H. invert_matches.
  repeat match goal with H : (_ =? _)%N = true |- _ => apply N.eqb_eq in H; subst end.
  split; [|done]. eexists _, _. by repeat split.
Qed.


Lemma matches_groupless r w g g' :
  re.groupless r = true → re.matches r w g g' → g' = g.
Proof.
  intros Hr H. induction H; simpl in Hr; try done.
  - apply andb_true_iff in Hr as [? ?]. rewrite IHmatches2, IHmatches1; done.
  - apply andb_true_iff in Hr as [? ?]. auto.
  - apply andb_true_iff in Hr as [? ?]. auto.
Qed.

Ltac invert_pattern :=
  repeat match goal with
  | H : re.matches (re.Cat _ _) _ _ _ |- _ => inversion H; subst; clear H
  | H : re.matches re.Eps _ _ _ |- _ => inversion H; subst; clear H
  | H : re.matches (re.Group _ _) _ _ _ |- _ => inversion H; subst; clear H
  | H : re.matches y20 _ _ _ |- _ => apply matches_y20 in H as [? ->]
  | H : re.matches _ _ _ _ |- _ => apply matches_groupless in H; [subst | reflexivity]
  end.

Lemma patterns_year20 : Forall year20_pattern FILENAME_DATE_PATTERNS.
Proof.
  unfold FILENAME_DATE_PATTERNS.
  repeat apply Forall_cons_2; [..|apply Forall_nil_2];
    intros w g H; cbn [re.Seq foldr] in H; invert_pattern;
    cbn [re.group]; repeat case_decide; try done.
  all: match goal with Hy : year_token ?y |- _ => exists y end.
  all: repeat split; [done..|].
  all: solve [repeat first [apply infix_here | apply infix_later]].
Qed.

Lemma decimal_range c v : decimal c = Some v → 0 ≤ v ≤ 9.
Proof.
  unfold decimal. destruct (find _ _) as [zero|] eqn:Hfind; [|done].
  intros [= <-]. apply find_some in Hfind as [_ Hzero].
  apply andb_true_iff in Hzero as [?%N.leb_le ?%N.ltb_lt]. lia.
Qed.

Lemma re_digit_decimal c : re_digit c = true → ∃ v, decimal c = Some v ∧ 0 ≤ v ≤ 9.
Proof.
  unfold re_digit. destruct (decimal c) as [v|] eqn:Hv; [|done].
  intros _. exists v. split; [done|]. by eapply decimal_range.
Qed.

Lemma int_year_token y :
  year_token y → ∃ n, int y = Some n ∧ 2000 ≤ n ≤ 2099.
Proof.
  intros (c & d & Hc & Hd & ->). unfold int. cbn [forallb].
  rewrite Hc, Hd.
  change (re_digit 50%N) with true. change (re_digit 48%N) with true.
  cbn [andb]. eexists. split; [done|].
  apply re_digit_decimal in Hc as (vc & Hvc & ?).
  apply re_digit_decimal in Hd as (vd & Hvd & ?).
  unfold int_digits. cbn [foldl]. rewrite Hvc, Hvd.
  change (decimal 50%N) with (Some 2). change (decimal 48%N) with (Some 0).
  simpl. lia.
Qed.

Lemma datetime_ymd_year y m d date : datetime_ymd y m d = Some date → year date = y.
Proof. unfold datetime_ymd. case_match; [|done]. by intros [= <-]. Qed.

Lemma date_of_match_year20 g y date :
  re.group g "y" = Some y → year_token y → date_of_match g = Some date →
  2000 ≤ year date ≤ 2099.
Proof.
  intros Hg Hy. unfold date_of_match. rewrite Hg. simpl.
  destruct (int_year_token y Hy) as (n & -> & Hn). simpl.
  destruct (re.group g "m" ≫= int) as [mo|]; [|done]. simpl.
  destruct (re.group g "d" ≫= int) as [d|]; [|done]. simpl.
  intros Hdate. apply datetime_ymd_year in Hdate. lia.
Qed.

Lemma has_year20_token y pre post :
  year_token y → has_year20 (pre ++ y ++ post) = true.
Proof.
  intros (c & d & Hc & Hd & ->). induction pre as [|x pre IH].
  - simpl. by rewrite Hc, Hd.
  - change (has_year20 ((x :: pre) ++ [50; 48; c; d]%N ++ post))
      with (match (x :: pre) ++ [50; 48; c; d]%N ++ post with
            | a :: b :: c :: d :: _ => (a =? 50)%N && (b =? 48)%N && re_digit c && re_digit d
            | _ => false
            end || has_year20 (pre ++ [50; 48; c; d]%N ++ post)).
    rewrite IH. apply orb_true_r.
Qed.

Lemma parse_date_loop_Some patterns name date :
  Forall year20_pattern patterns →
  parse_date_loop patterns name = Some date →
  2000 ≤ year date ≤ 2099 ∧ has_year20 name = true.
Proof.
  induction 1 as [|p patterns Hp _ IH]; simpl; [done|].
  destruct (re.search p name) as [g|] eqn:Hsearch; [|exact IH].
  destruct (date_of_match g) as [date'|] eqn:Hdate; [|exact IH].
  intros [= ->].
  apply search_sound in Hsearch as (pre & w & post & -> & Hw).
  apply Hp in Hw as (y & Hy & Hg & pre' & post' & ->). split.
  - by eapply date_of_match_year20.
  - rewrite <- !(assoc_L (++)), (assoc_L (++) pre pre'). by apply has_year20_token.
Qed.

Lemma forallb_seqZ (p : Z → bool) (lo len n : Z) :
  forallb p (seqZ lo len) = true → lo ≤ n < lo + len → p n = true.
Proof.
  intros Hall Hn. rewrite forallb_forall in Hall.
  apply Hall, list_elem_of_In, elem_of_seqZ. lia.
Qed.

Lemma iso_years_all : forallb check_iso_year (seqZ 0 10000) = true.
Proof. by vm_compute. Qed.

Lemma iso_year (y : Z) :
  0 ≤ y ≤ 9999 →
  parse_date_from_filename (iso_name y)
  = if (2000 <=? y) && (y <=? 2099) then Some (mk_datetime y 5 6 0 0 0) else None.
Proof.
  intros Hy. pose proof iso_years_all as Hall.
  apply (forallb_seqZ _ _ _ y) in Hall; [|lia].
  by apply bool_decide_eq_true in Hall.
Qed.

(** The digits of a date may be of any script: here the year is written 2,
    0 and the Arabic-Indic digits two and three. *)
Example parse_other_digits :
  parse_date_from_filename ([50; 48; 1634; 1635]%N ++ lit "-04-05.jpg")
  = Some (mk_datetime 2023 4 5 0 0 0).
Proof. by vm_compute. Qed.

(** C9 (as the code has it). A date taken from a file name has a year from
    2000 to 2099; a name that nowhere holds the characters 2 and 0 followed
    by two digits (1999-05-06.jpg is one) yields no date; when the name
    yields no date and EXIF gave none, [get_best_date] answers with the
    modification time; and a name YYYY-05-06.jpg yields the sixth of May of
    its year when that year is 2000 to 2099, and no date for every other
    year. *)
Theorem filename_dates_2000_2099 :
  (∀ filename date,
     parse_date_from_filename filename = Some date → 2000 ≤ year date ≤ 2099) ∧
  (∀ filename,
     has_year20 (os_path.splitext filename).1 = false →
     parse_date_from_filename filename = None) ∧
  parse_date_from_filename (lit "1999-05-06.jpg") = None ∧
  (∀ path img mtime,
     parse_date_from_filename (pathlib.name path) = None →
     (get_exif_data img).1 = None ∨ lower (pathlib.suffix path) ∉ IMAGE_EXT →
     (get_best_date path img mtime).1 = mtime) ∧
  (∀ y, 2000 ≤ y ≤ 2099 →
     parse_date_from_filename (iso_name y) = Some (mk_datetime y 5 6 0 0 0)) ∧
  (∀ y, 0 ≤ y < 2000 ∨ 2099 < y ≤ 9999 →
     parse_date_from_filename (iso_name y) = None).
Proof.
  split; [|split; [|split; [|split; [|split]]]].
  - intros filename date H.
    by apply (parse_date_loop_Some _ _ _ patterns_year20) in H as [H _].
  - intros filename Hno. unfold parse_date_from_filename.
    destruct (parse_date_loop _ _) as [date|] eqn:H; [|done].
    apply (parse_date_loop_Some _ _ _ patterns_year20) in H as [_ H]. congruence.
  - by vm_compute.
  - intros path img mtime Hname Hexif. unfold get_best_date. rewrite Hname.
    case_bool_decide as Himage.
    + destruct Hexif as [Hexif|Hexif]; [|done].
      destruct (get_exif_data img) as [exif_date device]. simpl in Hexif. by subst.
    + done.
  - intros y Hy. rewrite iso_year by lia.
    by rewrite (proj2 (Z.leb_le 2000 y)), (proj2 (Z.leb_le y 2099)) by lia.
  - intros y Hy. rewrite iso_year by lia.
    destruct Hy as [Hy|Hy].
    + by rewrite (proj2 (Z.leb_gt 2000 y)) by lia.
    + rewrite (proj2 (Z.leb_gt y 2099)) by lia. by rewrite andb_false_r.
Qed.

Lemma filename_dates_2000_2099_witness :
  2000 ≤ year (mk_datetime 2023 4 5 0 0 0) ≤ 2099 ∧
  parse_date_from_filename (lit "1999-05-06.jpg") = None ∧
  (get_best_date (pathlib.of_str SOURCE_DIR // lit "1999-05-06.jpg") None noon).1 = noon ∧
  parse_date_from_filename (iso_name 2024) = Some (mk_datetime 2024 5 6 0 0 0) ∧
  parse_date_from_filename (iso_name 2100) = None.
Proof.
  destruct filename_dates_2000_2099 as (Hyear & Hnone & _ & Hmtime & Hin & Hout).
  split; [|split; [|split; [|split]]].
  - apply (Hyear (lit "IMG_20230405_101112.jpg")). vm_compute. reflexivity.
  - apply (Hnone (lit "1999-05-06.jpg")). vm_compute. reflexivity.
  - apply (Hmtime (pathlib.of_str SOURCE_DIR // lit "1999-05-06.jpg") None noon).
    + vm_compute. reflexivity.
    + left. reflexivity.
  - apply (Hin 2024). lia.
  - apply (Hout 2100). lia.
Defined.

(** C9 (as stated) fails: the date embedded in 19991220101112.jpg is of
    1999, yet [re.search] finds 20101112 further on and the file is dated
    2010-11-12 instead of falling through to the modification time. *)
Lemma embedded_1999_date_extracted :
  parse_date_from_filename (lit "19991220101112.jpg")
  = Some (mk_datetime 2010 11 12 0 0 0) ∧
  (get_best_date (pathlib.of_str SOURCE_DIR // lit "19991220101112.jpg") None noon).1
  = mk_datetime 2010 11 12 0 0 0.
Proof. split; by vm_compute. Qed.

(** ** One file of the run *)

Lemma sort_file_spec EX e w seen w' seen' h :
  sort_file EX e (w, seen) = (w', seen', h) →
  let dir := entry_target_dir e in
  let disk1 := mkdir_parents dir (disk w) in
  let src := entry_path e in
  let date := (entry_date_device e).1 in
  let device := (entry_date_device e).2 in
  let duplicate := bool_decide (is_Some (seen !! e_digest e)) in
  (is_media e = false ∧ w' = w ∧ seen' = seen ∧ h = None) ∨
  (is_media e = true ∧ ∃ target,
     resolve_target disk1 dir (dir // entry_base_name e) duplicate = Some target ∧
     ((∃ err, e_move_error e = Some err ∧ h = Some (Raise err) ∧ seen' = seen ∧
         disk w' = disk1 ∧
         stdout w' = stdout w ++ [Moving src target] ∧
         log_file w' = log_file w ∧
         exiftool_calls w' = exiftool_calls w) ∨
      (e_move_error e = None ∧ h = None ∧
         seen' = <[e_digest e := target]> seen ∧
         disk w' = disk1 ∖ {[src]} ∪ {[target]} ∧
         stdout w' = stdout w ++ [Moving src target; Correcting target date] ∧
         log_file w' =
           log_move src target device (entry_category e) date (e_digest e) duplicate
             (PyStr (lit "false")) (log_file w) ∧
         exiftool_calls w' =
           if EX then exiftool_calls w ++ [(target, date)] else exiftool_calls w))).
Proof.
  intros Hrun dir disk1 src date device duplicate.
  unfold sort_file in Hrun.
  destruct (is_media e) eqn:Hmedia; simpl in Hrun; [|left; by simplify_eq].
  right. split; [done|].
  subst dir date device. unfold entry_target_dir in *.
  destruct (entry_date_device e) as [date device]. simpl in *.
  destruct (resolve_target_total disk1 (date_dir OUTPUT_DIR device date (entry_category e))
              (date_dir OUTPUT_DIR device date (entry_category e) // entry_base_name e)
              duplicate) as [target Htarget].
  exists target. split; [done|].
  subst disk1 duplicate. rewrite Htarget in Hrun.
  unfold shutil_move in Hrun. destruct (e_move_error e) as [err|].
  - left. exists err. simplify_eq. by repeat split.
  - right. unfold apply_correct_dates in Hrun. destruct EX; simpl in Hrun; simplify_eq.
    + repeat split; simpl; by rewrite <- ?(assoc_L (++)).
    + repeat split; simpl; by rewrite <- ?(assoc_L (++)).
Qed.

Lemma SOURCE_DIR_not_OUTPUT_DIR : SOURCE_DIR ≠ OUTPUT_DIR.
Proof. intros H. apply lit_inj in H. discriminate H. Qed.

Lemma head_entry_path e : head (entry_path e) = Some SOURCE_DIR.
Proof. done. Qed.

Lemma head_joinpath (p : Path) c a : head p = Some a → head (p // c) = Some a.
Proof. by destruct p. Qed.

Lemma head_date_dir base device date category :
  head (date_dir base device date category) = Some base.
Proof. unfold date_dir. by destruct category. Qed.

Lemma head_entry_target_dir e : head (entry_target_dir e) = Some OUTPUT_DIR.
Proof.
  unfold entry_target_dir. destruct (entry_date_device e). apply head_date_dir.
Qed.

Lemma entry_path_not_placed e (t : Path) : head t = Some OUTPUT_DIR → t ≠ entry_path e.
Proof.
  intros Ht ->. rewrite head_entry_path in Ht.
  injection Ht as Ht. by apply SOURCE_DIR_not_OUTPUT_DIR.
Qed.

Lemma resolve_target_in_dir disk dir base duplicate p :
  resolve_target disk dir (dir // base) duplicate = Some p → ∃ name, p = dir // name.
Proof.
  unfold resolve_target. case_bool_decide; [|intros [= <-]; by eexists].
  intros Hp. apply while_exists_Some in Hp as [[_ ->]|[_ (k & _ & -> & _)]].
  - destruct duplicate; by eexists.
  - by eexists.
Qed.

Lemma moved_to_snoc out ev :
  moved_to (out ++ [ev]) =
  moved_to out ++ match ev with Moving _ dst => [dst] | _ => [] end.
Proof. unfold moved_to. rewrite omap_app. by destruct ev. Qed.

Lemma mkdir_parents_subseteq p disk : disk ⊆ mkdir_parents p disk.
Proof. unfold mkdir_parents. set_solver. Qed.

Lemma sort_file_inv EX e w seen w' seen' h :
  sort_file EX e (w, seen) = (w', seen', h) → placed_inv w →
  NoDup (moved_to (stdout w')) ∧ (h = None → placed_inv w').
Proof.
  intros Hrun [Hnodup Hplaced]. apply sort_file_spec in Hrun.
  destruct Hrun as [(_ & -> & _ & _)|(_ & target & Htarget & Hrun)]; [done|].
  pose proof (resolve_target_fresh _ _ _ _ _ Htarget) as Hfresh.
  apply resolve_target_in_dir in Htarget as [name ->].
  assert (entry_target_dir e // name ∉ moved_to (stdout w)) as Hnew.
  { intros Hin. eapply Forall_forall in Hplaced as [Hdisk _]; [|exact Hin].
    apply Hfresh. by apply mkdir_parents_subseteq. }
  assert (NoDup (moved_to (stdout w) ++ [entry_target_dir e // name])) as Hnodup'.
  { apply NoDup_app. repeat split; [done| |apply NoDup_singleton].
    intros t Ht ->%list_elem_of_singleton. done. }
  destruct Hrun as [(err & _ & -> & _ & _ & Hout & _)|(_ & -> & _ & Hdisk & Hout & _)].
  - rewrite Hout, moved_to_snoc. by split.
  - assert (moved_to (stdout w') = moved_to (stdout w) ++ [entry_target_dir e // name])
      as Hmoved.
    { rewrite Hout. unfold moved_to. by rewrite omap_app. }
    rewrite Hmoved. split; [done|]. intros _. split; [by rewrite Hmoved|].
    rewrite Hmoved, Hdisk. apply Forall_app. split.
    + eapply Forall_impl; [exact Hplaced|]. simpl. intros t [Ht Hhead]. split; [|done].
      apply elem_of_union_l, elem_of_difference. split.
      * by apply mkdir_parents_subseteq.
      * intros ->%elem_of_singleton. by eapply entry_path_not_placed.
    + apply Forall_singleton. split; [apply elem_of_union_r; by apply elem_of_singleton|].
      apply head_joinpath, head_entry_target_dir.
Qed.

Lemma sort_loop_inv EX files w seen w' seen' h :
  sort_loop EX files (w, seen) = (w', seen', h) → placed_inv w →
  NoDup (moved_to (stdout w')).
Proof.
  revert w seen. induction files as [|e files IH]; intros w seen; cbn [sort_loop].
  - intros Heq [? _]. by simplify_eq.
  - destruct (sort_file EX e (w, seen)) as [[w1 seen1] [h1|]] eqn:Hfile.
    + intros Heq Hinv. injection Heq as <- <- <-.
      apply sort_file_inv in Hfile as [Hnodup _]; [exact Hnodup | exact Hinv].
    + intros Hloop Hinv. apply sort_file_inv in Hfile as [_ Hinv1]; [|done].
      eapply IH; [exact Hloop | by apply Hinv1].
Qed.

Lemma sort_media_stdout EX files w :
  ∃ w' seen' h, sort_loop EX files (w, ∅) = (w', seen', h) ∧
    (sort_media EX files w).2 = h ∧
    moved_to (stdout (sort_media EX files w).1) = moved_to (stdout w').
Proof.
  unfold sort_media. destruct (sort_loop EX files (w, ∅)) as [[w' seen'] [h|]] eqn:Hloop.
  - by exists w', seen', (Some h).
  - exists w', seen', None. repeat split. simpl. rewrite moved_to_snoc. by rewrite app_nil_r.
Qed.

(** C3. The path chosen for a file does not exist when it is chosen, and
    the destinations of one run of [sort_media] differ from one another. *)
Theorem collision_free (EXIFTOOL_EXISTS : bool) :
  (∀ disk target_dir base_name duplicate,
     ∃ target,
       resolve_target disk target_dir (target_dir // base_name) duplicate = Some target ∧
       target ∉ disk) ∧
  (∀ files disk log,
     NoDup (moved_to (stdout (sort_media EXIFTOOL_EXISTS files (mk_world disk log [] [])).1))).
Proof.
  split.
  - intros disk target_dir base_name duplicate.
    destruct (resolve_target_total disk target_dir (target_dir // base_name) duplicate)
      as [target Htarget].
    exists target. split; [done|]. by eapply resolve_target_fresh.
  - intros files disk log.
    destruct (sort_media_stdout EXIFTOOL_EXISTS files (mk_world disk log [] []))
      as (w' & seen' & h & Hloop & _ & ->).
    eapply sort_loop_inv; [exact Hloop|].
    split; [apply NoDup_nil_2 | apply Forall_nil_2].
Qed.


(** ** Three files called photo.jpg *)

Lemma resolve_target_free disk dir target_file duplicate :
  target_file ∉ disk → resolve_target disk dir target_file duplicate = Some target_file.
Proof. intros H. unfold resolve_target. by rewrite bool_decide_eq_false_2. Qed.

Lemma resolve_target_unseen disk dir base :
  dir // base ∈ disk →
  let stem := pathlib.stem (dir // base) in
  let suffix := pathlib.suffix (dir // base) in
  (dir // dup_name stem suffix ∉ disk →
   resolve_target disk dir (dir // base) false = Some (dir // dup_name stem suffix)) ∧
  (dir // dup_name stem suffix ∈ disk → dir // dup_name_n stem suffix 1 ∉ disk →
   resolve_target disk dir (dir // base) false = Some (dir // dup_name_n stem suffix 1)).
Proof.
  intros Hin stem suffix. unfold resolve_target. rewrite bool_decide_eq_true_2 by done.
  fold stem suffix. simpl negb. cbv iota.
  replace (size disk + 2)%nat with (S (S (size disk))) by lia.
  split.
  - intros Hfree. simpl. by rewrite bool_decide_eq_false_2.
  - intros Hfirst Hfree. simpl. rewrite bool_decide_eq_true_2 by done.
    by rewrite bool_decide_eq_false_2.
Qed.

Lemma photo_stem_suffix (dir : Path) :
  pathlib.stem (dir // lit "photo.jpg") = lit "photo" ∧
  pathlib.suffix (dir // lit "photo.jpg") = lit ".jpg".
Proof. unfold pathlib.stem, pathlib.suffix. rewrite name_joinpath. by vm_compute. Qed.

Lemma joinpath_not_ancestor (dir : Path) (c : str) :
  dir // c ∉ pathlib.ancestors_and_self dir.
Proof.
  unfold pathlib.ancestors_and_self. intros (n & Heq & _)%list_elem_of_fmap.
  apply (f_equal length) in Heq. unfold pathlib.joinpath in Heq.
  rewrite length_app, length_take in Heq. cbn [length] in Heq. lia.
Qed.

Lemma sort_file_placed EX e w seen target :
  is_media e = true → e_move_error e = None →
  resolve_target (mkdir_parents (entry_target_dir e) (disk w)) (entry_target_dir e)
    (entry_target_dir e // entry_base_name e)
    (bool_decide (is_Some (seen !! e_digest e))) = Some target →
  ∃ w', sort_file EX e (w, seen) = (w', <[e_digest e := target]> seen, None) ∧
    disk w' = mkdir_parents (entry_target_dir e) (disk w) ∖ {[entry_path e]} ∪ {[target]} ∧
    moved_to (stdout w') = moved_to (stdout w) ++ [target].
Proof.
  intros Hmedia Herr Htarget.
  destruct (sort_file EX e (w, seen)) as [[w' seen'] h] eqn:Hrun.
  apply sort_file_spec in Hrun.
  destruct Hrun as [(Hno & _)|(_ & target' & Htarget' & Hrun)]; [congruence|].
  rewrite Htarget in Htarget'. injection Htarget' as <-.
  destruct Hrun as [(err & Herr' & _)|(_ & -> & -> & Hdisk & Hout & _)]; [congruence|].
  exists w'. repeat split; [done|]. rewrite Hout. unfold moved_to. by rewrite omap_app.
Qed.

(** C8. Three files of different content that all want to be photo.jpg in
    one directory, none of whose three names is taken, are moved in turn to
    photo.jpg, photo_DUP.jpg and photo_DUP_1.jpg. *)
Theorem three_photos (EXIFTOOL_EXISTS : bool) (e1 e2 e3 : entry)
    (disk0 : gset Path) (log : option (list row)) :
  let dir := entry_target_dir e1 in
  Forall (λ e, is_media e = true ∧ e_move_error e = None ∧
               entry_target_dir e = dir ∧ entry_base_name e = lit "photo.jpg")
    [e1; e2; e3] →
  NoDup [e_digest e1; e_digest e2; e_digest e3] →
  Forall (λ name, dir // name ∉ disk0)
    [lit "photo.jpg"; lit "photo_DUP.jpg"; lit "photo_DUP_1.jpg"] →
  let run := sort_media EXIFTOOL_EXISTS [e1; e2; e3] (mk_world disk0 log [] []) in
  run.2 = None ∧
  moved_to (stdout run.1)
  = [dir // lit "photo.jpg"; dir // lit "photo_DUP.jpg"; dir // lit "photo_DUP_1.jpg"].
Proof.
  intros dir Hfiles Hdigests Hfree run.
  apply Forall_cons in Hfiles as [(Hm1 & He1 & _ & Hb1) Hfiles].
  apply Forall_cons in Hfiles as [(Hm2 & He2 & Hd2 & Hb2) Hfiles].
  apply Forall_cons in Hfiles as [(Hm3 & He3 & Hd3 & Hb3) _].
  apply NoDup_cons in Hdigests as [H1 Hdigests].
  apply NoDup_cons in Hdigests as [H2 _].
  apply not_elem_of_cons in H1 as [H12 H1]. apply not_elem_of_cons in H1 as [H13 _].
  apply not_elem_of_cons in H2 as [H23 _].
  apply Forall_cons in Hfree as [Hf0 Hfree].
  apply Forall_cons in Hfree as [Hf1 Hfree].
  apply Forall_cons in Hfree as [Hf2 _].
  destruct (photo_stem_suffix dir) as [Hstem Hsuffix].
  set (A := list_to_set (C := gset Path) (pathlib.ancestors_and_self dir)).
  assert (∀ c, dir // c ∉ A) as HA.
  { intros c Hc. apply elem_of_list_to_set in Hc. by eapply joinpath_not_ancestor. }
  assert (∀ e c, entry_path e ≠ dir // c) as Hsrc.
  { intros e c Heq. symmetry in Heq. revert Heq. apply entry_path_not_placed.
    apply head_joinpath, head_entry_target_dir. }
  assert (dir // lit "photo.jpg" ≠ dir // lit "photo_DUP.jpg") as Hn01.
  { intros Heq%(inj _). discriminate Heq. }
  assert (dir // lit "photo.jpg" ≠ dir // lit "photo_DUP_1.jpg") as Hn02.
  { intros Heq%(inj _). discriminate Heq. }
  assert (dir // lit "photo_DUP.jpg" ≠ dir // lit "photo_DUP_1.jpg") as Hn12.
  { intros Heq%(inj _). discriminate Heq. }
  (* first file *)
  destruct (sort_file_placed EXIFTOOL_EXISTS e1 (mk_world disk0 log [] []) ∅
              (dir // lit "photo.jpg")) as (w1 & Hrun1 & Hdisk1 & Hout1); [done..| |].
  { rewrite Hb1. apply resolve_target_free. fold dir. unfold mkdir_parents. fold A.
    simpl. set_solver. }
  (* second file *)
  destruct (sort_file_placed EXIFTOOL_EXISTS e2 w1 (<[e_digest e1 := dir // lit "photo.jpg"]> ∅)
              (dir // lit "photo_DUP.jpg")) as (w2 & Hrun2 & Hdisk2 & Hout2); [done..| |].
  { rewrite Hb2, Hd2, lookup_insert_ne, lookup_empty by done.
    rewrite bool_decide_eq_false_2 by (by intros [? ?]).
    destruct (resolve_target_unseen (mkdir_parents dir (disk w1)) dir (lit "photo.jpg"))
      as [Hres _].
    - rewrite Hdisk1. fold dir. unfold mkdir_parents. fold A. set_solver.
    - rewrite Hstem, Hsuffix in Hres. apply Hres.
      rewrite Hdisk1. fold dir. unfold mkdir_parents. fold A.
      change (dup_name (lit "photo") (lit ".jpg")) with (lit "photo_DUP.jpg").
      set_solver. }
  (* third file *)
  destruct (sort_file_placed EXIFTOOL_EXISTS e3 w2
              (<[e_digest e2 := dir // lit "photo_DUP.jpg"]>
                 (<[e_digest e1 := dir // lit "photo.jpg"]> ∅))
              (dir // lit "photo_DUP_1.jpg")) as (w3 & Hrun3 & Hdisk3 & Hout3); [done..| |].
  { rewrite Hb3, Hd3, !lookup_insert_ne, lookup_empty by done.
    rewrite bool_decide_eq_false_2 by (by intros [? ?]).
    destruct (resolve_target_unseen (mkdir_parents dir (disk w2)) dir (lit "photo.jpg"))
      as [_ Hres].
    - rewrite Hdisk2, Hd2, Hdisk1. fold dir. unfold mkdir_parents. fold A.
      pose proof (Hsrc e2). set_solver.
    - rewrite Hstem, Hsuffix in Hres.
      change (dup_name (lit "photo") (lit ".jpg")) with (lit "photo_DUP.jpg") in Hres.
      change (dup_name_n (lit "photo") (lit ".jpg") 1) with (lit "photo_DUP_1.jpg") in Hres.
      apply Hres.
      + rewrite Hdisk2. unfold mkdir_parents. set_solver.
      + rewrite Hdisk2, Hd2, Hdisk1. fold dir. unfold mkdir_parents. fold A.
        set_solver. }
  subst run. unfold sort_media. cbn [sort_loop].
  rewrite Hrun1, Hrun2, Hrun3. simpl. split; [done|].
  rewrite moved_to_snoc, app_nil_r, Hout3, Hout2, Hout1. done.
Qed.

Lemma three_photos_witness :
  let run := sort_media true [photo_1; photo_2; photo_3] empty_world in
  run.2 = None ∧
  moved_to (stdout run.1)
  = [sample_dir // lit "photo.jpg"; sample_dir // lit "photo_DUP.jpg";
     sample_dir // lit "photo_DUP_1.jpg"].
Proof.
  apply (three_photos true photo_1 photo_2 photo_3 ∅ None).
  - repeat (apply Forall_cons_2; [repeat split; vm_compute; reflexivity|]).
    apply Forall_nil_2.
  - apply (bool_decide_unpack _). vm_compute. exact I.
  - repeat (apply Forall_cons_2; [apply not_elem_of_empty|]). apply Forall_nil_2.
Defined.

(** ** Runs that stop, runs that go on *)

Lemma sort_file_halt EX e st st' h :
  sort_file EX e st = (st', Some h) →
  ∃ err, h = Raise err ∧ is_media e = true ∧ e_move_error e = Some err.
Proof.
  destruct st as [w seen], st' as [w' seen']. intros Hrun.
  apply sort_file_spec in Hrun.
  destruct Hrun as [(_ & _ & _ & [=])|(Hmedia & target & _ & Hrun)].
  destruct Hrun as [(err & Herr & [= ->] & _)|(_ & [=] & _)]. by exists err.
Qed.

Lemma sort_loop_halt EX files st st' h :
  sort_loop EX files st = (st', Some h) → ∃ err, h = Raise err.
Proof.
  revert st. induction files as [|e files IH]; intros st; cbn [sort_loop]; [done|].
  destruct (sort_file EX e st) as [st1 [h1|]] eqn:Hfile.
  - intros [= <- <-]. apply sort_file_halt in Hfile as (err & -> & _). by exists err.
  - apply IH.
Qed.

(** The bound of the collision search is never what stops [sort_media]. *)
Lemma sort_media_never_out_of_fuel EX files w :
  (sort_media EX files w).2 ≠ Some OutOfFuel.
Proof.
  unfold sort_media.
  destruct (sort_loop EX files (w, ∅)) as [[w' seen'] [h|]] eqn:Hloop; [|done].
  apply sort_loop_halt in Hloop as [err ->]. done.
Qed.

(** A move that fails ends [sort_media] on the spot: the files after it are
    not looked at. *)
Lemma sort_media_stops_at_error EX e rest w err :
  is_media e = true → e_move_error e = Some err →
  sort_media EX (e :: rest) w = sort_media EX [e] w ∧
  (sort_media EX (e :: rest) w).2 = Some (Raise err).
Proof.
  intros Hmedia Herr. unfold sort_media. cbn [sort_loop].
  destruct (sort_file EX e (w, ∅)) as [[w' seen'] h] eqn:Hfile.
  apply sort_file_spec in Hfile.
  destruct Hfile as [(Hno & _)|(_ & target & _ & Hfile)]; [congruence|].
  destruct Hfile as [(err' & Herr' & -> & _)|(Hok & _)]; [|congruence].
  split; [done|]. simpl. congruence.
Qed.

Lemma resolve_leftover_total disk root_dest dest :
  is_Some (resolve_leftover disk root_dest dest).
Proof.
  unfold resolve_leftover. case_bool_decide; [|done].
  apply while_exists_total; [|lia].
  intros a b Hab. apply (inj _) in Hab. by apply (inj _) in Hab.
Qed.

(** The leftover pass, whose move sits in a [try], goes on after a failure. *)
Lemma move_leftover_goes_on e w : (move_leftover e w).2 = None.
Proof.
  unfold move_leftover.
  destruct (resolve_leftover_total (disk w) (pathlib.of_str OUTPUT_DIR)
              (pathlib.of_str OUTPUT_DIR // pathlib.name (entry_path e))) as [dest ->].
  unfold shutil_move. by destruct (e_move_error e).
Qed.

Lemma move_remaining_goes_on files w :
  (move_remaining_non_media_files files w).2 = None.
Proof.
  revert w. induction files as [|e files IH]; intros w; simpl; [done|].
  pose proof (move_leftover_goes_on e w) as He.
  destruct (move_leftover e w) as [w' [h|]]; [done|]. apply IH.
Qed.

(** C1 fails on the code. Lines 453-454 move the file outside any [try]:
    when the move of a.jpg raises, the run ends with that exception, b.jpg
    is never looked at and stays where it was, and the leftover pass does
    not start. No row is written, as the claim says. *)
Theorem move_error_aborts_run :
  let run := main true [file_a_denied; file_b] [file_b] a_and_b in
  run.2 = Some (Raise denied) ∧
  stdout run.1 = [Moving (entry_path file_a_denied) (sample_dir // lit "a.jpg")] ∧
  entry_path file_b ∈ disk run.1 ∧
  log_file run.1 = Some [].
Proof.
  repeat split;
    first [by vm_compute | apply (bool_decide_unpack _); by vm_compute].
Qed.

(** ** Timestamp repair and the log *)

Lemma sort_loop_log EX files w seen w' seen' h :
  sort_loop EX files (w, seen) = (w', seen', h) →
  (EX = false → exiftool_calls w' = exiftool_calls w) ∧
  ∃ rows, Forall says_yes rows ∧
    log_file w' = match rows with
                  | [] => log_file w
                  | _ => Some (open_append (log_file w) ++ rows)
                  end.
Proof.
  revert w seen. induction files as [|e files IH]; intros w seen; cbn [sort_loop].
  - intros [= <- <- <-]. split; [done|]. by exists [].
  - destruct (sort_file EX e (w, seen)) as [[w1 seen1] h1] eqn:Hfile.
    apply sort_file_spec in Hfile.
    destruct Hfile as [(_ & -> & -> & ->)|(_ & target & _ & Hfile)]; [apply IH|].
    destruct Hfile as [(err & _ & -> & _ & _ & _ & Hlog & Hcalls)
                      |(_ & -> & _ & _ & _ & Hlog & Hcalls)].
    + intros [= <- <- <-]. split; [done|]. by exists [].
    + intros Hloop. apply IH in Hloop as [Hcalls' (rows & Hyes & Hlog')]. split.
      * intros ->. by rewrite Hcalls', Hcalls.
      * match type of Hlog with _ = log_move ?s ?t ?d ?c ?da ?f ?du ?v _ =>
          set (r := [CPath s; CPath t; CStr d; CStr c; CDate da; CStr f; CBool du;
                     CStr (lit "YES")]) end.
        exists (r :: rows). split; [by constructor|].
        rewrite Hlog', Hlog. unfold log_move. cbn [truthy]. fold r.
        destruct rows; [done|]. simpl. by rewrite <- (assoc_L (++)).
Qed.

(** Whatever the run, no exiftool call is made when the tool is missing,
    and every row the run writes reads YES. *)
Lemma sort_media_log EX files w :
  (EX = false → exiftool_calls (sort_media EX files w).1 = exiftool_calls w) ∧
  ∃ rows, Forall says_yes rows ∧
    log_file (sort_media EX files w).1 = match rows with
                                         | [] => log_file w
                                         | _ => Some (open_append (log_file w) ++ rows)
                                         end.
Proof.
  unfold sort_media.
  destruct (sort_loop EX files (w, ∅)) as [[w' seen'] [h|]] eqn:Hloop;
    by apply sort_loop_log in Hloop.
Qed.

(** C2 fails on the code in its second half. With exiftool missing nothing
    is run, but line 468 hands [log_move] the string 'false', which is true
    as a condition, so the row reads YES instead of NO. *)
Theorem unavailable_tool_logs_yes :
  let run := sort_media false [file_a] a_and_b in
  run.2 = None ∧
  exiftool_calls run.1 = [] ∧
  last_timestamp_fixed run.1 = Some (CStr (lit "YES")) ∧
  last_timestamp_fixed run.1 ≠ Some (CStr (lit "NO")).
Proof. repeat split; by vm_compute. Qed.

(** * Further properties *)

(** ** Stripping and collapsing *)

Lemma lstrip_suffix cs s : lstrip cs s `suffix_of` s.
Proof.
  induction s as [|c s IH]; simpl; [done|].
  destruct (chr_in cs c); [by apply suffix_cons_r | done].
Qed.

Lemma head_lstrip cs s c : head (lstrip cs s) = Some c → chr_in cs c = false.
Proof.
  induction s as [|x s IH]; simpl; [done|].
  destruct (chr_in cs x) eqn:Hx; [done|]. simpl. by intros [= <-].
Qed.

Lemma lstrip_id cs s :
  (∀ c, head s = Some c → chr_in cs c = false) → lstrip cs s = s.
Proof. destruct s as [|c s]; simpl; [done|]. intros H. by rewrite (H c). Qed.

Lemma rstrip_prefix cs s : rstrip cs s `prefix_of` s.
Proof.
  unfold rstrip. destruct (lstrip_suffix cs (reverse s)) as [k Hk].
  exists (reverse k). apply (f_equal reverse) in Hk.
  by rewrite reverse_involutive, reverse_app in Hk.
Qed.

Lemma last_rstrip cs s c : last (rstrip cs s) = Some c → chr_in cs c = false.
Proof. unfold rstrip. rewrite last_reverse. apply head_lstrip. Qed.

Lemma rstrip_id cs s :
  (∀ c, last s = Some c → chr_in cs c = false) → rstrip cs s = s.
Proof.
  intros H. unfold rstrip. rewrite lstrip_id, reverse_involutive; [done|].
  intros c. rewrite head_reverse. apply H.
Qed.

Lemma head_prefix (s t : str) c : s `prefix_of` t → head s = Some c → head t = Some c.
Proof. intros [k ->]. by destruct s. Qed.

Lemma strip_trimmed cs s : trimmed cs (strip cs s).
Proof.
  unfold strip. split.
  - intros c Hc. apply (head_prefix _ _ _ (rstrip_prefix cs _)) in Hc.
    by eapply head_lstrip.
  - apply last_rstrip.
Qed.

Lemma strip_id cs s : trimmed cs s → strip cs s = s.
Proof. intros [Hh Hl]. unfold strip. by rewrite lstrip_id, rstrip_id. Qed.

Lemma strip_infix cs s : ∃ pre post, s = pre ++ strip cs s ++ post.
Proof.
  unfold strip.
  destruct (lstrip_suffix cs s) as [pre Hpre].
  destruct (rstrip_prefix cs (lstrip cs s)) as [post Hpost].
  exists pre, post. by rewrite <- Hpost.
Qed.

Lemma no_double_app_r u s k : no_double u (s ++ k) = true → no_double u s = true.
Proof.
  induction s as [|a s IH]; [done|].
  destruct s as [|b s]; [done|].
  cbn [app no_double] in *. intros [? ?]%andb_true_iff.
  apply andb_true_iff. split; [done|]. by apply IH.
Qed.

Lemma no_double_app_l u k s : no_double u (k ++ s) = true → no_double u s = true.
Proof.
  induction k as [|a k IH]; [done|].
  cbn [app no_double]. intros [_ ?]%andb_true_iff. by apply IH.
Qed.

Lemma no_double_strip u cs s : no_double u s = true → no_double u (strip cs s) = true.
Proof.
  intros H. destruct (strip_infix cs s) as (pre & post & Hs). rewrite Hs in H.
  by apply no_double_app_l, no_double_app_r in H.
Qed.

Lemma forallb_strip (p : char → bool) cs s :
  forallb p s = true → forallb p (strip cs s) = true.
Proof.
  intros H. destruct (strip_infix cs s) as (pre & post & Hs). rewrite Hs in H.
  rewrite !forallb_app in H. by apply andb_true_iff in H as [_ [? _]%andb_true_iff].
Qed.

Lemma forallb_re_sub_runs (p : char → bool) cls rep b s :
  forallb p rep = true → forallb p s = true →
  forallb p (re_sub_runs cls rep b s) = true.
Proof.
  intros Hrep. revert b. induction s as [|c s IH]; intros b; simpl; [done|].
  intros [Hc Hs]%andb_true_iff. destruct (cls c).
  - rewrite forallb_app. apply andb_true_iff. split; [by destruct b | by apply IH].
  - simpl. rewrite Hc. by apply IH.
Qed.

(** A run of class characters leaves none of them behind, unless the
    replacement brings one. *)
Lemma re_sub_runs_clears cls rep b s :
  forallb (λ c, negb (cls c)) rep = true →
  forallb (λ c, negb (cls c)) (re_sub_runs cls rep b s) = true.
Proof.
  intros Hrep. revert b. induction s as [|c s IH]; intros b; simpl; [done|].
  destruct (cls c) eqn:Hc.
  - rewrite forallb_app. apply andb_true_iff. split; [by destruct b | apply IH].
  - simpl. rewrite Hc. apply IH.
Qed.

Lemma re_sub_runs_id cls rep b s :
  forallb (λ c, negb (cls c)) s = true → re_sub_runs cls rep b s = s.
Proof.
  revert b. induction s as [|c s IH]; intros b; simpl; [done|].
  intros [Hc Hs]%andb_true_iff. apply negb_true_iff in Hc. rewrite Hc.
  by rewrite IH.
Qed.

Lemma chr_in_singleton (u c : char) : chr_in [u] c = (c =? u)%N.
Proof.
  unfold chr_in. destruct (N.eqb_spec c u) as [->|Hne].
  - apply bool_decide_eq_true_2, list_elem_of_here.
  - apply bool_decide_eq_false_2. by intros ->%list_elem_of_singleton.
Qed.

(** Collapsing runs of [u] into one [u] leaves no two [u] side by side. *)
Lemma re_sub_runs_no_double u b s :
  no_double u (re_sub_runs (chr_in [u]) [u] b s) = true ∧
  (b = true → head (re_sub_runs (chr_in [u]) [u] b s) ≠ Some u).
Proof.
  revert b. induction s as [|c s IH]; intros b; cbn [re_sub_runs]; [done|].
  rewrite chr_in_singleton. destruct (N.eqb_spec c u) as [->|Hne].
  - destruct (IH true) as [IH1 IH2]. destruct b; simpl; [by split|].
    split; [|done].
    destruct (re_sub_runs (chr_in [u]) [u] true s) as [|x t] eqn:Hrest; [done|].
    apply andb_true_iff. split; [|done].
    apply negb_true_iff, andb_false_iff. right. apply N.eqb_neq.
    intros ->. by apply IH2.
  - destruct (IH false) as [IH1 _]. split; [|simpl; congruence].
    cbn [no_double]. rewrite IH1, andb_true_r.
    destruct (re_sub_runs _ _ _ _); [done|].
    apply negb_true_iff, andb_false_iff. left. by apply N.eqb_neq.
Qed.

Lemma re_sub_runs_collapsed u s :
  no_double u s = true →
  ∀ b, (b = true → head s ≠ Some u) → re_sub_runs (chr_in [u]) [u] b s = s.
Proof.
  intros Hs. induction s as [|c s IH]; intros b Hb; cbn [re_sub_runs]; [done|].
  rewrite chr_in_singleton. cbn [no_double] in Hs.
  apply andb_true_iff in Hs as [Hcs Hs].
  destruct (N.eqb_spec c u) as [->|Hne].
  - destruct b; [exfalso; by apply Hb|]. simpl. f_equal. apply IH; [done|].
    intros _. destruct s as [|x s]; [done|]. simpl. intros [= ->].
    rewrite N.eqb_refl in Hcs. done.
  - f_equal. by apply IH.
Qed.

Lemma filter_all (Q : char → Prop) `{∀ x, Decision (Q x)} (s : str) :
  Forall Q s → filter Q s = s.
Proof.
  induction 1 as [|c s Hc Hs IH]; [done|]. by rewrite filter_cons_True, IH.
Qed.

Lemma forallb_Forall (p : char → bool) (s : str) :
  forallb p s = true ↔ Forall (λ c, p c = true) s.
Proof.
  induction s as [|c s IH]; simpl; [by split; [constructor|]|].
  rewrite andb_true_iff, IH, Forall_cons. done.
Qed.

Lemma re_sub_delete_clears cls s :
  forallb (λ c, negb (cls c)) (re_sub_delete cls s) = true.
Proof.
  apply forallb_Forall, Forall_forall. intros c Hc.
  apply list_elem_of_filter in Hc as [Hc _]. by rewrite Hc.
Qed.

Lemma re_sub_delete_id cls s :
  forallb (λ c, negb (cls c)) s = true → re_sub_delete cls s = s.
Proof.
  intros H. apply filter_all. apply forallb_Forall in H.
  eapply Forall_impl; [exact H|]. simpl. intros c Hc. by apply negb_true_iff.
Qed.

(** ** The shape of cleaned names *)

Lemma forallb_and (p q r : char → bool) (s : str) :
  (∀ c, p c = true → q c = true → r c = true) →
  forallb p s = true → forallb q s = true → forallb r s = true.
Proof.
  intros Hr. induction s as [|c s IH]; simpl; [done|].
  intros [? ?]%andb_true_iff [? ?]%andb_true_iff.
  apply andb_true_iff. split; [by apply Hr | by apply IH].
Qed.

Lemma forallb_impl (p q : char → bool) (s : str) :
  (∀ c, p c = true → q c = true) → forallb p s = true → forallb q s = true.
Proof. intros Hq H. apply (forallb_and p p q s); auto. Qed.

Lemma plain_char_not_space c : plain_char c = true → re_space c = false.
Proof.
  unfold plain_char, re_space.
  intros [[H1%N.ltb_lt H2%N.leb_le]%andb_true_iff _]%andb_true_iff.
  rewrite (proj2 (N.leb_gt c 13)), (proj2 (N.leb_gt c 32)),
    (proj2 (N.leb_gt 8192 c)) by lia.
  repeat match goal with
  | |- context [(c =? ?b)%N] => rewrite (proj2 (N.eqb_neq c b)) by lia
  end.
  by rewrite !andb_false_r.
Qed.

Lemma plain_char_device_char c : plain_char c = true → device_char c.
Proof.
  unfold plain_char, device_char.
  intros [[H1%N.ltb_lt H2%N.leb_le]%andb_true_iff _]%andb_true_iff. lia.
Qed.

Lemma device_steps_shape s :
  forallb plain_char (device_steps s) = true ∧
  no_double 95 (device_steps s) = true ∧
  trimmed (lit "_") (device_steps s).
Proof.
  unfold device_steps.
  set (s1 := filter (λ ch, (32 ≤ ch ∧ ch ≤ 126)%N) s).
  set (s2 := re_sub_delete (chr_in ILLEGAL_CHARS) s1).
  set (s3 := re_sub_runs re_space (lit "_") false s2).
  set (s4 := re_sub_runs (chr_in (lit "_")) (lit "_") false s3).
  split; [|split].
  - apply forallb_strip.
    apply (forallb_and
             (λ c, (32 <=? c)%N && (c <=? 126)%N && negb (chr_in ILLEGAL_CHARS c))
             (λ c, negb (re_space c))).
    + intros c [[H1%N.leb_le H2]%andb_true_iff H3]%andb_true_iff Hsp.
      unfold plain_char. rewrite H2, H3, !andb_true_r. apply N.ltb_lt.
      destruct (decide (c = 32%N)) as [->|]; [done | lia].
    + do 2 (apply forallb_re_sub_runs; [done|]).
      apply (forallb_and (λ c, (32 <=? c)%N && (c <=? 126)%N)
               (λ c, negb (chr_in ILLEGAL_CHARS c))).
      * intros c H1 H2. by rewrite H1, H2.
      * apply forallb_Forall, Forall_filter_keep, Forall_forall. intros c Hc.
        apply list_elem_of_filter in Hc as [[? ?] _].
        apply andb_true_iff. split; by apply N.leb_le.
      * apply re_sub_delete_clears.
    + apply forallb_re_sub_runs; [done|]. by apply re_sub_runs_clears.
  - apply no_double_strip. apply (re_sub_runs_no_double 95 false s3).
  - apply strip_trimmed.
Qed.

Lemma clean_device_string_steps s :
  clean_device_string s = DEFAULT ∨
  (clean_device_string s = device_steps s ∧ device_steps s ≠ [] ∧
   lower (device_steps s) ∉ [ []; lit "default"; lit "default_";
                               lit "_default"; lit "default_default" ]).
Proof.
  destruct s as [|c s]; [by left|].
  unfold clean_device_string. fold (device_steps (c :: s)).
  case_bool_decide as Hin; [by left|]. right. repeat split; [|done].
  intros Hnil. apply Hin. rewrite Hnil. apply list_elem_of_here.
Qed.

Lemma device_name_ok_DEFAULT : device_name_ok DEFAULT.
Proof.
  repeat split; try by vm_compute.
  - intros c [= <-]. by vm_compute.
  - intros c [= <-]. by vm_compute.
Qed.

Lemma clean_device_string_ok (s : str) : device_name_ok (clean_device_string s).
Proof.
  destruct (clean_device_string_steps s) as [->|(-> & Hne & _)];
    [apply device_name_ok_DEFAULT|].
  destruct (device_steps_shape s) as (Hplain & Hdouble & Htrim).
  exact (conj Hne (conj Hplain (conj Hdouble Htrim))).
Qed.

(** X1. The name [clean_device_string] returns is not empty, holds only
    printable ASCII without spaces and without the characters the script
    bans, has no two underscores in a row and none at either end. That is
    all the cleaning does: the names ., .. and CON have this shape and come
    back as they are. *)
Theorem clean_device_string_shape (s : str) :
  device_name_ok (clean_device_string s) ∧
  Forall (λ d, device_name_ok d ∧ clean_device_string d = d)
    [lit "."; lit ".."; lit "CON"].
Proof.
  split; [apply clean_device_string_ok|].
  assert (Forall (λ d, clean_device_string d = d) [lit "."; lit ".."; lit "CON"]) as H
    by (repeat constructor).
  eapply Forall_impl; [exact H|]. simpl. intros d Hd. split; [|done].
  rewrite <- Hd. apply clean_device_string_ok.
Qed.

Lemma device_steps_fixed d : device_name_ok d → device_steps d = d.
Proof.
  intros (_ & Hplain & Hdouble & Htrim). unfold device_steps.
  rewrite filter_all.
  2:{ apply forallb_Forall in Hplain. eapply Forall_impl; [exact Hplain|].
      apply plain_char_device_char. }
  rewrite re_sub_delete_id.
  2:{ apply (forallb_impl plain_char _ d); [|exact Hplain]. unfold plain_char.
      by intros c [_ ?]%andb_true_iff. }
  rewrite (re_sub_runs_id re_space).
  2:{ apply (forallb_impl plain_char _ d); [|exact Hplain].
      intros c Hc. by rewrite (plain_char_not_space c Hc). }
  change (lit "_") with [95%N] in *.
  rewrite (re_sub_runs_collapsed 95 d Hdouble false) by done.
  by apply strip_id.
Qed.

(** X2. Cleaning a device name twice gives what cleaning it once gives. *)
Theorem clean_device_string_idempotent (s : str) :
  clean_device_string (clean_device_string s) = clean_device_string s.
Proof.
  destruct (clean_device_string_steps s) as [->|(Hclean & Hne & Hnot)];
    [by vm_compute|].
  pose proof (clean_device_string_ok s) as Hok. rewrite Hclean in *.
  destruct (clean_device_string_steps (device_steps s)) as [Hd|(Hd & _ & _)].
  - exfalso. destruct (device_steps s) as [|c d] eqn:Hsteps; [done|].
    unfold clean_device_string in Hd. fold (device_steps (c :: d)) in Hd.
    rewrite (device_steps_fixed _ Hok) in Hd.
    rewrite bool_decide_eq_false_2 in Hd by done.
    apply Hnot. rewrite Hd. apply (bool_decide_unpack _). by vm_compute.
  - by rewrite Hd, device_steps_fixed.
Qed.

Lemma clean_filename_text_ok (text : str) : title_ok (clean_filename_text text).
Proof.
  destruct text as [|c text]; [by split; [|split]|].
  unfold clean_filename_text. split; [|apply strip_trimmed].
  apply forallb_strip.
  apply (forallb_and isprintable (λ c, negb (chr_in ILLEGAL_CHARS c))).
  - intros x H1 H2. by rewrite H1, H2.
  - apply forallb_Forall, Forall_filter_keep, Forall_forall. intros x Hx.
    by apply list_elem_of_filter in Hx as [? _].
  - apply re_sub_delete_clears.
Qed.

Lemma clean_filename_text_fixed (t : str) : title_ok t → clean_filename_text t = t.
Proof.
  intros [Hall Htrim]. destruct t as [|c t]; [done|].
  unfold clean_filename_text. revert Hall Htrim.
  generalize (c :: t). intros s Hall Htrim.
  rewrite filter_all.
  2:{ apply forallb_Forall in Hall. eapply Forall_impl; [exact Hall|].
      simpl. by intros x [? _]%andb_true_iff. }
  rewrite re_sub_delete_id.
  2:{ revert Hall. apply forallb_impl. by intros x [_ ?]%andb_true_iff. }
  by apply strip_id.
Qed.

(** X3. For a text within the range of the tables, the title cleaned by
    [clean_filename_text] holds only printable characters outside the
    banned ones and has no space or dot at either end. *)
Theorem clean_filename_text_shape (text : str) :
  in_tables text → title_ok (clean_filename_text text).
Proof. intros _. apply clean_filename_text_ok. Qed.

Lemma clean_filename_text_shape_witness :
  title_ok (clean_filename_text (lit " Holiday: 2019. ")).
Proof.
  apply (clean_filename_text_shape (lit " Holiday: 2019. ")).
  apply (bool_decide_unpack _). by vm_compute.
Defined.

(** X4. Cleaning a title twice gives what cleaning it once gives. *)
Theorem clean_filename_text_idempotent (text : str) :
  clean_filename_text (clean_filename_text text) = clean_filename_text text.
Proof. apply clean_filename_text_fixed, clean_filename_text_ok. Qed.

(** ** The name a file is stored under *)







(** ** Category detection, in general *)

Lemma first_keyword_first words name root :
  let hit := λ w, contains w name || contains w root in
  (first_keyword words name root = [] ∧ Forall (λ w, hit w = false) words) ∨
  (∃ pre post, words = pre ++ first_keyword words name root :: post ∧
     hit (first_keyword words name root) = true ∧ Forall (λ w, hit w = false) pre).
Proof.
  intros hit. induction words as [|word rest IH]; cbn [first_keyword]; [by left|].
  fold (hit word). destruct (hit word) eqn:Hword.
  - right. exists [], rest. by repeat split.
  - destruct IH as [[Hnone Hall]|(pre & post & Hrest & Hhit & Hpre)].
    + left. split; [done|]. by constructor.
    + right. exists (word :: pre), post. repeat split; [|done|by constructor].
      simpl. by rewrite <- Hrest.
Qed.

(** X6. For a file name and a directory path within the range of the case
    table, the category is the first keyword of [SPECIAL_KEYWORDS], in the
    order of the list, that occurs in the lower-cased file name or in the
    lower-cased directory path, and it is empty exactly when none occurs. *)
Theorem detect_special_category_first (path : Path) (root : str) :
  in_tables (pathlib.name path) → in_tables root →
  let hit := λ w, contains w (lower (pathlib.name path)) || contains w (lower root) in
  let category := detect_special_category path root in
  (category = [] ∧ Forall (λ w, hit w = false) SPECIAL_KEYWORDS) ∨
  (category ≠ [] ∧ hit category = true ∧
   ∃ pre post, SPECIAL_KEYWORDS = pre ++ category :: post ∧
               Forall (λ w, hit w = false) pre).
Proof.
  intros _ _ hit category. subst category. unfold detect_special_category.
  destruct (first_keyword_first SPECIAL_KEYWORDS (lower (pathlib.name path)) (lower root))
    as [[Hnone Hall]|(pre & post & Hwords & Hhit & Hpre)]; [by left|].
  right. split; [|split; [done | by exists pre, post]].
  intros Hnil.
  assert ([] ∈ SPECIAL_KEYWORDS) as Hin.
  { rewrite Hwords, Hnil. apply elem_of_app. right. apply list_elem_of_here. }
  revert Hin. apply (bool_decide_unpack _). by vm_compute.
Qed.

Lemma detect_special_category_first_witness :
  let path := pathlib.of_str SOURCE_DIR // lit "Screenshot_TikTok.png" in
  let root := lit "D:\Sorting_script\output_v3\to_sort" in
  let hit := λ w, contains w (lower (pathlib.name path)) || contains w (lower root) in
  let category := detect_special_category path root in
  (category = [] ∧ Forall (λ w, hit w = false) SPECIAL_KEYWORDS) ∨
  (category ≠ [] ∧ hit category = true ∧
   ∃ pre post, SPECIAL_KEYWORDS = pre ++ category :: post ∧
               Forall (λ w, hit w = false) pre).
Proof.
  apply (detect_special_category_first
           (pathlib.of_str SOURCE_DIR // lit "Screenshot_TikTok.png")
           (lit "D:\Sorting_script\output_v3\to_sort"));
    apply (bool_decide_unpack _); by vm_compute.
Defined.

(** ** Dates *)

Lemma datetime_ymd_valid y m d date :
  datetime_ymd y m d = Some date →
  1 ≤ year date ≤ 9999 ∧ 1 ≤ month date ≤ 12 ∧
  1 ≤ day date ≤ days_in_month (year date) (month date) ∧
  hour date = 0 ∧ minute date = 0 ∧ second date = 0.
Proof.
  unfold datetime_ymd.
  destruct (_ && _) eqn:Hok; [|done]. intros [= <-]. simpl.
  repeat (apply andb_true_iff in Hok as [Hok ?%Z.leb_le]).
  apply Z.leb_le in Hok. lia.
Qed.

Lemma parse_date_loop_valid patterns name date :
  parse_date_loop patterns name = Some date →
  ∃ y mo d, datetime_ymd y mo d = Some date.
Proof.
  induction patterns as [|p patterns IH]; simpl; [done|].
  destruct (re.search p name) as [m|]; [|exact IH].
  destruct (date_of_match m) as [date'|] eqn:Hdate; [|exact IH].
  intros [= ->]. unfold date_of_match in Hdate.
  destruct (re.group m "y" ≫= int) as [y|]; [|done].
  destruct (re.group m "m" ≫= int) as [mo|]; [|done].
  destruct (re.group m "d" ≫= int) as [d|]; [|done].
  simpl in Hdate. by exists y, mo, d.
Qed.

Lemma parse_date_from_filename_calendar (filename : str) (date : datetime) :
  parse_date_from_filename filename = Some date →
  1 ≤ month date ≤ 12 ∧
  1 ≤ day date ≤ days_in_month (year date) (month date) ∧
  hour date = 0 ∧ minute date = 0 ∧ second date = 0.
Proof.
  intros H. apply parse_date_loop_valid in H as (y & mo & d & H).
  by apply datetime_ymd_valid in H as (_ & ? & ? & ? & ? & ?).
Qed.

Lemma round_trip_all :
  forallb (λ y, forallb (λ m, forallb (check_round_trip y m) (seqZ 1 31)) (seqZ 1 12))
    (seqZ 2000 100) = true.
Proof. by vm_compute. Qed.

Lemma swallowed_all :
  forallb (λ y, forallb (check_swallowed y) (seqZ 1 12)) (seqZ 2000 100) = true.
Proof. by vm_compute. Qed.

(** X8. Dates go through file names and come back. A date taken from a
    file name is a day of the calendar at midnight; every day from 2000 to
    2099, written as YYYY-MM-DD, DD.MM.YYYY, YYYYMMDD, DDMMYYYY or
    IMG_YYYYMMDD, is read as that day; and for the twentieth of a month
    written DDMMYYYY the third pattern matches first with a month 20, the
    ValueError of [datetime] is swallowed and the fourth pattern gives the
    date. *)
Theorem filename_date_round_trip :
  (∀ filename date,
     parse_date_from_filename filename = Some date →
     1 ≤ month date ≤ 12 ∧
     1 ≤ day date ≤ days_in_month (year date) (month date) ∧
     hour date = 0 ∧ minute date = 0 ∧ second date = 0) ∧
  (∀ y m d,
     2000 ≤ y ≤ 2099 → 1 ≤ m ≤ 12 → 1 ≤ d ≤ days_in_month y m →
     Forall (λ name, parse_date_from_filename name = Some (mk_datetime y m d 0 0 0))
       (dated_names y m d)) ∧
  (∀ y m,
     2000 ≤ y ≤ 2099 → 1 ≤ m ≤ 12 →
     ∃ third g,
       FILENAME_DATE_PATTERNS !! 2%nat = Some third ∧
       re.search third (twentieth y m) = Some g ∧
       date_of_match g = None).
Proof.
  split; [exact parse_date_from_filename_calendar|]. split.
  - intros y m d Hy Hm Hd.
    assert (d ≤ 31) as Hd31.
    { unfold days_in_month in Hd. repeat case_match; lia. }
    pose proof round_trip_all as Hall.
    apply (forallb_seqZ _ _ _ y) in Hall; [|lia].
    apply (forallb_seqZ _ _ _ m) in Hall; [|lia].
    apply (forallb_seqZ _ _ _ d) in Hall; [|lia].
    unfold check_round_trip in Hall.
    rewrite (proj2 (Z.leb_le d (days_in_month y m))) in Hall by lia.
    cbn [negb orb] in Hall. apply Forall_forall. intros name Hname.
    rewrite forallb_forall in Hall.
    apply list_elem_of_In, Hall in Hname. by apply bool_decide_eq_true in Hname.
  - intros y m Hy Hm.
    pose proof swallowed_all as Hall.
    apply (forallb_seqZ _ _ _ y) in Hall; [|lia].
    apply (forallb_seqZ _ _ _ m) in Hall; [|lia].
    unfold check_swallowed in Hall.
    destruct (FILENAME_DATE_PATTERNS !! 2%nat) as [third|] eqn:Hthird;
      [|discriminate Hall].
    destruct (re.search third (twentieth y m)) as [g|] eqn:Hg; [|discriminate Hall].
    exists third, g. by apply bool_decide_eq_true in Hall.
Qed.

Lemma filename_date_round_trip_witness :
  Forall (λ name, parse_date_from_filename name = Some (mk_datetime 2024 2 29 0 0 0))
    (dated_names 2024 2 29).
Proof.
  apply filename_date_round_trip; [lia | lia |].
  change (days_in_month 2024 2) with 29. lia.
Defined.

(** ** Devices *)

Lemma get_exif_data_device_ok img : device_name_ok (get_exif_data img).2.
Proof.
  destruct img as [exif|]; simpl; [apply clean_device_string_ok|].
  apply device_name_ok_DEFAULT.
Qed.

(** X9. For a file that is no image the device [get_best_date] returns is
    "default" and the EXIF data are not looked at; for every file the
    device has the shape that [clean_device_string] gives a name, and
    no more than that: a device such as a_. has it. *)
Theorem get_best_date_device (path : Path) (img : option Exif) (mtime : datetime) :
  device_name_ok (get_best_date path img mtime).2 ∧
  (lower (pathlib.suffix path) ∉ IMAGE_EXT →
   (get_best_date path img mtime).2 = lit "default" ∧
   get_best_date path img mtime = get_best_date path None mtime).
Proof.
  unfold get_best_date. case_bool_decide as Himage.
  - split; [|done]. pose proof (get_exif_data_device_ok img) as Hok.
    destruct (get_exif_data img) as [[d|] device]; simpl in *; [done|].
    by destruct (parse_date_from_filename _).
  - destruct (parse_date_from_filename _); simpl;
      (split; [apply device_name_ok_DEFAULT | done]).
Qed.

Lemma get_best_date_device_witness :
  (get_best_date (pathlib.of_str SOURCE_DIR // lit "clip.mp4")
     (Some canon_80d) noon).2
  = lit "default".
Proof.
  apply (get_best_date_device (pathlib.of_str SOURCE_DIR // lit "clip.mp4")
           (Some canon_80d) noon).
  apply (bool_decide_unpack _). vm_compute. exact I.
Defined.

Lemma no_double_app u (a b : str) :
  no_double u a = true → no_double u b = true →
  last a ≠ Some u ∨ head b ≠ Some u →
  no_double u (a ++ b) = true.
Proof.
  intros Ha Hb Hjoin. induction a as [|x a IH]; [done|].
  destruct a as [|y a].
  - simpl. rewrite Hb, andb_true_r. destruct b as [|z b]; [done|].
    apply negb_true_iff, andb_false_iff.
    destruct Hjoin as [Hx|Hz]; [left|right]; apply N.eqb_neq; simpl in *; congruence.
  - cbn [no_double app] in *. apply andb_true_iff in Ha as [Hxy Ha].
    rewrite Hxy. simpl. apply IH; [done|]. by rewrite last_cons_cons in Hjoin.
Qed.

Lemma app_cons_split (a b t : str) (x : char) :
  a ++ x :: b = t →
  t !! length a = Some x ∧ a = take (length a) t ∧ b = drop (S (length a)) t.
Proof.
  intros <-. repeat split.
  - by rewrite list_lookup_middle.
  - by rewrite take_app_length.
  - by rewrite (cons_middle x), (assoc_L (++)), drop_app_length'
      by (rewrite length_app; simpl; lia).
Qed.

Lemma lower_underscore_join (a b : str) :
  lower (a ++ lit "_" ++ b) = lower a ++ 95%N :: lower b.
Proof. unfold lower. by rewrite !fmap_app. Qed.

Lemma joined_not_default (a b : str) :
  a ≠ [] → b ≠ [] → lower a ≠ lit "default" →
  lower (a ++ lit "_" ++ b) ∉ [ []; lit "default"; lit "default_";
                                lit "_default"; lit "default_default" ].
Proof.
  intros Ha Hb Hdef. rewrite lower_underscore_join.
  assert (lower a ≠ []) as Ha' by (by destruct a).
  assert (lower b ≠ []) as Hb' by (by destruct b).
  intros Hin. repeat (apply elem_of_cons in Hin as [Heq|Hin]);
    [..|by apply elem_of_nil in Hin].
  all: try (by destruct (lower a)).
  all: apply app_cons_split in Heq as (Hx & Hta & Htb).
  all: destruct (length (lower a)) as [|[|[|[|[|[|[|[|n]]]]]]]];
    try discriminate Hx; try done.
  all: repeat (destruct n as [|n]; try discriminate Hx).
Qed.

Lemma clean_not_default s :
  clean_device_string s ≠ DEFAULT →
  device_name_ok (clean_device_string s) ∧ lower (clean_device_string s) ≠ lit "default".
Proof.
  intros Hne. split; [apply clean_device_string_ok|].
  destruct (clean_device_string_steps s) as [?|(-> & _ & Hnot)]; [done|].
  intros Heq. apply Hnot. rewrite Heq. apply (bool_decide_unpack _). by vm_compute.
Qed.

Lemma device_name_ok_join (a b : str) :
  device_name_ok a → device_name_ok b → device_name_ok (a ++ lit "_" ++ b).
Proof.
  intros (Ha & Hpa & Hda & Hta1 & Hta2) (Hb & Hpb & Hdb & Htb1 & Htb2).
  assert (∀ s : option char,
            (∀ c, s = Some c → chr_in (lit "_") c = false) → s ≠ Some 95%N) as Hnot.
  { intros s Hs ->. by specialize (Hs _ eq_refl). }
  split; [by destruct a|]. split; [|split; [|split]].
  - rewrite !forallb_app, Hpa, Hpb. done.
  - apply no_double_app; [done| |left; by apply Hnot].
    apply (no_double_app 95 [95%N] b); [done..|]. right. by apply Hnot.
  - intros c. destruct a as [|x a]; [done|]. simpl. apply Hta1.
  - intros c. rewrite (assoc_L (++)), last_app. destruct (last b) eqn:Hlast.
    + intros [= <-]. by apply Htb2.
    + by apply last_None in Hlast.
Qed.

(** X10. The device read from EXIF is "default" as soon as the make or the
    model cleans to "default"; otherwise it is the cleaned make, an
    underscore and the cleaned model, unchanged by the final cleaning. *)
Theorem device_is_make_model (exif : Exif) :
  let make := clean_device_string (default [] (Make exif)) in
  let model := clean_device_string (default [] (Model exif)) in
  (make = lit "default" ∨ model = lit "default" →
   (get_exif_data (Some exif)).2 = lit "default") ∧
  (make ≠ lit "default" → model ≠ lit "default" →
   (get_exif_data (Some exif)).2 = make ++ lit "_" ++ model).
Proof.
  intros make model. cbn [get_exif_data snd]. fold make model. unfold str_eqb. split.
  - intros [->| ->]; rewrite ?bool_decide_eq_true_2 by done; rewrite ?orb_true_r;
      by vm_compute.
  - intros Hmake Hmodel. rewrite !bool_decide_eq_false_2 by done. cbn [orb].
    destruct (clean_not_default _ Hmake) as [Hok1 Hlow1].
    destruct (clean_not_default _ Hmodel) as [Hok2 _].
    fold make model in Hok1, Hok2, Hlow1.
    pose proof (device_name_ok_join make model Hok1 Hok2) as Hok.
    rewrite strip_id by apply Hok.
    destruct (clean_device_string_steps (make ++ lit "_" ++ model))
      as [Hdef|(-> & _ & _)]; [|by apply device_steps_fixed].
    exfalso. destruct (make ++ lit "_" ++ model) as [|c d] eqn:Hd; [by destruct Hok|].
    unfold clean_device_string in Hdef. fold (device_steps (c :: d)) in Hdef.
    rewrite (device_steps_fixed _ Hok) in Hdef.
    case_bool_decide as Hin.
    + revert Hin. rewrite <- Hd. apply joined_not_default; [apply Hok1 | apply Hok2 | done].
    + rewrite <- Hd in Hdef.
      apply (joined_not_default make model); [apply Hok1 | apply Hok2 | done |].
      rewrite Hdef. apply (bool_decide_unpack _). by vm_compute.
Qed.

Lemma device_is_make_model_witness :
  (get_exif_data (Some canon_80d)).2 = lit "Canon_EOS_80D".
Proof.
  apply (device_is_make_model canon_80d); vm_compute; discriminate.
Defined.

(** ** What a run leaves behind *)

Lemma append_rows_app f rows1 rows2 :
  append_rows (append_rows f rows1) rows2 = append_rows f (rows1 ++ rows2).
Proof.
  destruct rows1 as [|r1 rows1]; [done|]. destruct rows2 as [|r2 rows2].
  - by rewrite app_nil_r.
  - simpl. by rewrite <- (assoc_L (++)).
Qed.

Lemma corrected_app out1 out2 : corrected (out1 ++ out2) = corrected out1 ++ corrected out2.
Proof. apply omap_app. Qed.

Lemma moved_to_app out1 out2 : moved_to (out1 ++ out2) = moved_to out1 ++ moved_to out2.
Proof. apply omap_app. Qed.

(** Everything one run of the loop of [sort_media] adds to standard
    output, to the log and to the record of exiftool calls. *)
Lemma sort_loop_trace EX files w seen w' seen' h :
  sort_loop EX files (w, seen) = (w', seen', h) →
  ∃ out rows,
    stdout w' = stdout w ++ out ∧
    log_file w' = append_rows (log_file w) rows ∧
    row_destination <$> rows = (λ c, Some (CPath c.1)) <$> corrected out ∧
    exiftool_calls w' = exiftool_calls w ++ (if EX then corrected out else []) ∧
    (h = None → moved_to out = (corrected out).*1) ∧
    (∀ halt, h = Some halt → ∃ t, moved_to out = (corrected out).*1 ++ [t]) ∧
    (∀ earlier, (∀ d, is_Some (seen !! d) ↔ d ∈ earlier) → flags_ok earlier rows).
Proof.
  revert w seen. induction files as [|e files IH]; intros w seen; cbn [sort_loop].
  - intros [= <- <- <-]. exists [], []. rewrite app_nil_r.
    repeat split; try done. destruct EX; simpl; by rewrite app_nil_r.
  - destruct (sort_file EX e (w, seen)) as [[w1 seen1] h1] eqn:Hfile.
    apply sort_file_spec in Hfile.
    destruct Hfile as [(_ & -> & -> & ->)|(_ & target & _ & Hfile)]; [apply IH|].
    destruct Hfile as [(err & _ & -> & _ & _ & Hout & Hlog & Hcalls)
                      |(_ & -> & Hseen & _ & Hout & Hlog & Hcalls)].
    + intros [= <- <- <-].
      exists [Moving (entry_path e) target], [].
      rewrite Hlog, Hcalls. repeat split; try done.
      * destruct EX; by rewrite app_nil_r.
      * intros _ _. by exists target.
    + intros Hloop.
      apply IH in Hloop as (out & rows & Hout' & Hlog' & Hdest & Hcalls' & Hok & Hhalt & Hflags).
      set (date := (entry_date_device e).1) in *.
      set (r := [CPath (entry_path e); CPath target; CStr (entry_date_device e).2;
                 CStr (entry_category e); CDate date; CStr (e_digest e);
                 CBool (bool_decide (is_Some (seen !! e_digest e)));
                 CStr (lit "YES")]).
      assert (log_file w1 = append_rows (log_file w) [r]) as Hlog1 by by rewrite Hlog.
      exists ([Moving (entry_path e) target; Correcting target date] ++ out), (r :: rows).
      split; [by rewrite Hout', Hout, <- (assoc_L (++))|].
      split; [by rewrite Hlog', Hlog1, append_rows_app|].
      split; [by rewrite fmap_cons, corrected_app, fmap_app, Hdest|].
      split.
      { rewrite Hcalls', Hcalls, corrected_app.
        destruct EX; [|by rewrite !app_nil_r]. by rewrite <- (assoc_L (++)). }
      split; [intros Hh; by rewrite moved_to_app, corrected_app, fmap_app, (Hok Hh)|].
      split.
      { intros halt Hh. destruct (Hhalt halt Hh) as [t Ht]. exists t.
        by rewrite moved_to_app, corrected_app, fmap_app, Ht, (assoc_L (++)). }
      intros earlier Hearlier. exists (e_digest e). repeat split.
      * by rewrite <- (bool_decide_ext _ _ (Hearlier (e_digest e))).
      * apply Hflags. intros d. rewrite Hseen, elem_of_cons.
        destruct (decide (e_digest e = d)) as [->|Hne].
        -- rewrite lookup_insert_eq. split; [by left | by eexists].
        -- rewrite lookup_insert_ne by done. rewrite Hearlier. naive_solver.
Qed.

Lemma sort_media_trace EX files w :
  ∃ out rows,
    moved_to (stdout (sort_media EX files w).1) = moved_to (stdout w) ++ moved_to out ∧
    corrected (stdout (sort_media EX files w).1) = corrected (stdout w) ++ corrected out ∧
    log_file (sort_media EX files w).1 = append_rows (log_file w) rows ∧
    row_destination <$> rows = (λ c, Some (CPath c.1)) <$> corrected out ∧
    exiftool_calls (sort_media EX files w).1
    = exiftool_calls w ++ (if EX then corrected out else []) ∧
    ((sort_media EX files w).2 = None → moved_to out = (corrected out).*1) ∧
    (∀ halt, (sort_media EX files w).2 = Some halt →
       ∃ t, moved_to out = (corrected out).*1 ++ [t]) ∧
    flags_ok [] rows.
Proof.
  unfold sort_media.
  destruct (sort_loop EX files (w, ∅)) as [[w' seen'] h] eqn:Hloop.
  apply sort_loop_trace in Hloop
    as (out & rows & Hout & Hlog & Hdest & Hcalls & Hok & Hhalt & Hflags).
  assert (flags_ok [] rows) as Hflags'.
  { apply Hflags. intros d. rewrite lookup_empty.
    split; [by intros [? ?] | by intros ?%elem_of_nil]. }
  exists out, rows. destruct h as [h|]; simpl.
  - rewrite Hout, moved_to_app, corrected_app. repeat split; try done;
      intros halt [= <-]; by apply Hhalt.
  - rewrite !moved_to_app, !corrected_app, Hout, moved_to_app, corrected_app. simpl.
    rewrite !app_nil_r. repeat split; try done.
Qed.

(** X11. One row per file moved: the rows [sort_media] appends to the log
    name, in order, the destinations of the moves that went through. When
    the run completes these are all the destinations announced; when a move
    raises, the destination announced last has no row. *)
Theorem audit_rows_follow_moves (EX : bool) (files : list entry)
    (disk : gset Path) (log : option (list row)) (calls : list (Path * datetime)) :
  let run := sort_media EX files (mk_world disk log calls []) in
  ∃ rows,
    log_file run.1 = append_rows log rows ∧
    row_destination <$> rows = (λ c, Some (CPath c.1)) <$> corrected (stdout run.1) ∧
    (run.2 = None → moved_to (stdout run.1) = (corrected (stdout run.1)).*1) ∧
    (∀ halt, run.2 = Some halt →
       ∃ t, moved_to (stdout run.1) = (corrected (stdout run.1)).*1 ++ [t]).
Proof.
  intros run. subst run.
  destruct (sort_media_trace EX files (mk_world disk log calls []))
    as (out & rows & -> & -> & Hlog & Hdest & _ & Hok & Hhalt & _).
  exists rows. by repeat split.
Qed.

(** X12. The Duplicate cell of a row written by [sort_media] is True
    exactly when an earlier row of the same run carries the same digest. *)
Theorem duplicate_flags (EX : bool) (files : list entry) (w : world) :
  ∃ rows,
    log_file (sort_media EX files w).1 = append_rows (log_file w) rows ∧
    flags_ok [] rows.
Proof.
  destruct (sort_media_trace EX files w)
    as (out & rows & _ & _ & Hlog & _ & _ & _ & _ & Hflags).
  by exists rows.
Qed.

(** X13. When exiftool is there it is run once for every file moved, on
    the destination and with the date resolved for the file, in the order
    of the moves; when it is missing it is never run. *)
Theorem exiftool_calls_follow_moves (EX : bool) (files : list entry)
    (disk : gset Path) (log : option (list row)) (calls : list (Path * datetime)) :
  let run := sort_media EX files (mk_world disk log calls []) in
  exiftool_calls run.1 = calls ++ (if EX then corrected (stdout run.1) else []).
Proof.
  intros run. subst run.
  destruct (sort_media_trace EX files (mk_world disk log calls []))
    as (out & rows & _ & -> & _ & _ & Hcalls & _). done.
Qed.

(** ** What a run does to the disk *)

Lemma head_ancestor (d p : Path) a :
  head d = Some a → p ∈ pathlib.ancestors_and_self d → head p = Some a.
Proof.
  intros Hd (n & -> & _)%list_elem_of_fmap. by destruct d.
Qed.

Lemma head_mkdir_parents (d p : Path) a disk :
  head d = Some a → p ∈ mkdir_parents d disk → p ∈ disk ∨ head p = Some a.
Proof.
  intros Hd Hp. unfold mkdir_parents in Hp.
  apply elem_of_union in Hp as [?|Hp%elem_of_list_to_set]; [by left|].
  right. by eapply head_ancestor.
Qed.

(** One file: nothing leaves the disk but the file moved, nothing comes
    onto it outside OUTPUT_DIR, and a file that was moved is gone from
    where it was. *)
Lemma sort_file_disk EX e w seen w' seen' h :
  sort_file EX e (w, seen) = (w', seen', h) →
  (∀ p, p ∈ disk w → p ≠ entry_path e → p ∈ disk w') ∧
  (∀ p, p ∈ disk w' → p ∈ disk w ∨ head p = Some OUTPUT_DIR) ∧
  (h = None → is_media e = true → entry_path e ∉ disk w').
Proof.
  intros Hrun. apply sort_file_spec in Hrun.
  destruct Hrun as [(Hno & -> & _ & _)|(_ & target & Htarget & Hrun)];
    [repeat split; [auto..|congruence]|].
  apply resolve_target_in_dir in Htarget as [name ->].
  pose proof (head_joinpath _ name _ (head_entry_target_dir e)) as Hhead.
  destruct Hrun as [(err & _ & -> & _ & -> & _)|(_ & _ & _ & -> & _)].
  - repeat split; [| |done].
    + intros p Hp _. by apply mkdir_parents_subseteq.
    + intros p Hp. eapply head_mkdir_parents; [apply head_entry_target_dir | exact Hp].
  - repeat split.
    + intros p Hp Hne. apply elem_of_union_l, elem_of_difference. split.
      * by apply mkdir_parents_subseteq.
      * by intros ?%elem_of_singleton.
    + intros p [[Hp _]%elem_of_difference| ->%elem_of_singleton]%elem_of_union.
      * eapply head_mkdir_parents; [apply head_entry_target_dir | exact Hp].
      * by right.
    + intros _ _ [[_ Hp]%elem_of_difference|Hp%elem_of_singleton]%elem_of_union.
      * apply Hp. by apply elem_of_singleton.
      * symmetry in Hp. by eapply entry_path_not_placed in Hp.
Qed.

Lemma source_not_created (e : entry) (disk disk' : gset Path) :
  (∀ q, q ∈ disk' → q ∈ disk ∨ head q = Some OUTPUT_DIR) →
  entry_path e ∉ disk → entry_path e ∉ disk'.
Proof.
  intros Hnew Hout [Hin|Hhead]%Hnew; [done|].
  by eapply (entry_path_not_placed e (entry_path e)).
Qed.

Lemma sort_loop_disk EX files w seen w' seen' h :
  sort_loop EX files (w, seen) = (w', seen', h) →
  (∀ p, p ∈ disk w → p ∉ entry_path <$> files → p ∈ disk w') ∧
  (∀ p, p ∈ disk w' → p ∈ disk w ∨ head p = Some OUTPUT_DIR) ∧
  (h = None → Forall (λ e, is_media e = true → entry_path e ∉ disk w') files).
Proof.
  revert w seen. induction files as [|e files IH]; intros w seen; cbn [sort_loop].
  - intros [= <- <- <-]. repeat split; auto.
  - destruct (sort_file EX e (w, seen)) as [[w1 seen1] [h1|]] eqn:Hfile;
      apply sort_file_disk in Hfile as (Hkeep & Hnew & Hgone).
    + intros [= <- <- <-]. repeat split; [|done|done].
      intros p Hp Hnot. apply Hkeep; [done|]. intros ->. apply Hnot, list_elem_of_here.
    + intros Hloop. apply IH in Hloop as (Hkeep' & Hnew' & Hgone'). repeat split.
      * intros p Hp Hnot. apply not_elem_of_cons in Hnot as [? ?]. auto.
      * intros p [Hp|Hp]%Hnew'; [by apply Hnew | by right].
      * intros ->. constructor; [|by apply Hgone'].
        intros Hmedia. eapply (source_not_created e); [exact Hnew'|].
        by apply Hgone.
Qed.

Lemma sort_media_disk EX files w :
  ∃ w' seen' h, sort_loop EX files (w, ∅) = (w', seen', h) ∧
    disk (sort_media EX files w).1 = disk w' ∧ (sort_media EX files w).2 = h.
Proof.
  unfold sort_media. destruct (sort_loop EX files (w, ∅)) as [[w' seen'] [h|]] eqn:Hloop.
  - by exists w', seen', (Some h).
  - by exists w', seen', None.
Qed.



Lemma sort_loop_placed EX files w seen w' seen' :
  sort_loop EX files (w, seen) = (w', seen', None) → placed_inv w → placed_inv w'.
Proof.
  revert w seen. induction files as [|e files IH]; intros w seen; cbn [sort_loop].
  - by intros [= <- <-].
  - destruct (sort_file EX e (w, seen)) as [[w1 seen1] [h1|]] eqn:Hfile; [done|].
    intros Hloop Hinv. apply sort_file_inv in Hfile as [_ Hinv1]; [|done].
    eapply IH; [exact Hloop | by apply Hinv1].
Qed.

(** X15. After a run of [sort_media] that completes, no media file of the
    walk is left where it was, and every destination announced is on disk
    and lies under OUTPUT_DIR. *)
Theorem sort_media_completed (EX : bool) (files : list entry)
    (disk0 : gset Path) (log : option (list row)) (calls : list (Path * datetime)) :
  let run := sort_media EX files (mk_world disk0 log calls []) in
  run.2 = None →
  Forall (λ e, is_media e = true → entry_path e ∉ disk run.1) files ∧
  Forall (λ t, t ∈ disk run.1 ∧ head t = Some OUTPUT_DIR) (moved_to (stdout run.1)).
Proof.
  intros run Hdone. subst run.
  destruct (sort_media_disk EX files (mk_world disk0 log calls []))
    as (w' & seen' & h & Hloop & Hdisk & Hh).
  rewrite Hdone in Hh. subst h. rewrite Hdisk. split.
  - apply sort_loop_disk in Hloop as (_ & _ & Hgone). by apply Hgone.
  - assert (moved_to (stdout (sort_media EX files (mk_world disk0 log calls [])).1)
            = moved_to (stdout w')) as ->.
    { unfold sort_media. rewrite Hloop. simpl. by rewrite moved_to_snoc, app_nil_r. }
    apply sort_loop_placed in Hloop as [_ Hplaced]; [done|].
    split; [apply NoDup_nil_2 | apply Forall_nil_2].
Qed.

Lemma sort_media_completed_witness :
  let run := sort_media true [photo_1; photo_2; photo_3] empty_world in
  Forall (λ e, is_media e = true → entry_path e ∉ disk run.1) [photo_1; photo_2; photo_3] ∧
  Forall (λ t, t ∈ disk run.1 ∧ head t = Some OUTPUT_DIR) (moved_to (stdout run.1)).
Proof.
  apply (sort_media_completed true [photo_1; photo_2; photo_3] ∅ None []).
  by vm_compute.
Defined.

(** ** Runs that stop, in general *)

Lemma sort_loop_app EX files more st :
  sort_loop EX (files ++ more) st =
  match sort_loop EX files st with
  | (st', None) => sort_loop EX more st'
  | (st', Some h) => (st', Some h)
  end.
Proof.
  revert st. induction files as [|e files IH]; intros st; cbn [sort_loop app]; [done|].
  destruct (sort_file EX e st) as [st1 [h1|]]; [done | apply IH].
Qed.

(** X16. Once a move has raised, the run is over: whatever files the walk
    would have met afterwards, the outcome of [sort_media] is the same. *)
Theorem sort_media_halt_is_final (EX : bool) (files more : list entry) (w : world)
    (h : halt) :
  (sort_media EX files w).2 = Some h →
  sort_media EX (files ++ more) w = sort_media EX files w.
Proof.
  unfold sort_media. rewrite sort_loop_app.
  destruct (sort_loop EX files (w, ∅)) as [[w' seen'] [h'|]]; [done|].
  simpl. done.
Qed.

Lemma sort_media_halt_is_final_witness :
  sort_media true ([file_a_denied] ++ [file_b]) a_and_b
  = sort_media true [file_a_denied] a_and_b.
Proof.
  apply (sort_media_halt_is_final true [file_a_denied] [file_b] a_and_b (Raise denied)).
  by vm_compute.
Defined.

(** ** The leftover pass *)

Lemma resolve_leftover_in_root disk root dest p :
  resolve_leftover disk root (root // dest) = Some p → ∃ name, p = root // name.
Proof.
  unfold resolve_leftover. case_bool_decide; [|intros [= <-]; by eexists].
  intros Hp. apply while_exists_Some in Hp as [[_ ->]|[_ (k & _ & -> & _)]];
    by eexists.
Qed.

Lemma move_leftover_trace e w :
  ∃ out,
    stdout (move_leftover e w).1 = stdout w ++ out ∧
    leftover_sources out = [entry_path e] ∧
    leftover_failures out = from_option (λ err, [(entry_path e, err)]) [] (e_move_error e) ∧
    Forall leftover_flat out ∧
    log_file (move_leftover e w).1 = log_file w.
Proof.
  unfold move_leftover.
  destruct (resolve_leftover_total (disk w) (pathlib.of_str OUTPUT_DIR)
              (pathlib.of_str OUTPUT_DIR // pathlib.name (entry_path e))) as [dest Hdest].
  rewrite Hdest. apply resolve_leftover_in_root in Hdest as [name ->].
  unfold shutil_move. destruct (e_move_error e) as [err|]; simpl.
  - exists [MovingLeftover (entry_path e) (pathlib.of_str OUTPUT_DIR // name);
            FailedLeftover (entry_path e) err].
    rewrite <- (assoc_L (++)). repeat split. repeat constructor. by exists name.
  - exists [MovingLeftover (entry_path e) (pathlib.of_str OUTPUT_DIR // name)].
    repeat split. repeat constructor. by exists name.
Qed.

Lemma move_remaining_trace files w :
  ∃ out,
    stdout (move_remaining_non_media_files files w).1 = stdout w ++ out ∧
    leftover_sources out = entry_path <$> files ∧
    leftover_failures out
    = omap (λ e, (λ err, (entry_path e, err)) <$> e_move_error e) files ∧
    Forall leftover_flat out ∧
    log_file (move_remaining_non_media_files files w).1 = log_file w.
Proof.
  revert w. induction files as [|e files IH]; intros w; simpl.
  - exists []. by rewrite app_nil_r.
  - pose proof (move_leftover_goes_on e w) as Hgo.
    destruct (move_leftover_trace e w) as (out1 & Hout1 & Hsrc1 & Hfail1 & Hflat1 & Hlog1).
    destruct (move_leftover e w) as [w1 [h|]]; [done|]. simpl in *.
    destruct (IH w1) as (out & Hout & Hsrc & Hfail & Hflat & Hlog).
    exists (out1 ++ out). rewrite Hout, Hout1, Hlog, Hlog1.
    unfold leftover_sources, leftover_failures in *.
    rewrite !omap_app, Hsrc1, Hsrc, Hfail1, Hfail.
    repeat split; [by rewrite (assoc_L (++))| |by apply Forall_app].
    by destruct (e_move_error e).
Qed.

(** X17. The leftover pass looks at every file of its walk, in order,
    whether or not earlier moves failed: a move that raises is reported and
    does not stop the pass. It reports exactly the moves that raised, puts
    files nowhere but directly into OUTPUT_DIR, and does not touch the
    log. *)
Theorem leftover_pass_covers_all (files : list entry) (w : world) :
  let run := move_remaining_non_media_files files w in
  run.2 = None ∧
  log_file run.1 = log_file w ∧
  ∃ out,
    stdout run.1 = stdout w ++ out ∧
    leftover_sources out = entry_path <$> files ∧
    leftover_failures out
    = omap (λ e, (λ err, (entry_path e, err)) <$> e_move_error e) files ∧
    Forall leftover_flat out.
Proof.
  intros run. subst run. split; [apply move_remaining_goes_on|].
  destruct (move_remaining_trace files w) as (out & Hout & Hsrc & Hfail & Hflat & Hlog).
  split; [done|]. by exists out.
Qed.

(** X18. The path the leftover pass picks never exists; when the wanted
    path is taken it is stem_DUP.ext if that is free, else the first free
    one of stem_DUP_1.ext, stem_DUP_2.ext, ... *)
Theorem resolve_leftover_first_free (disk : gset Path) (root_dest : Path) (name : str) :
  let dest := root_dest // name in
  let first := root_dest // dup_name (pathlib.stem dest) (pathlib.suffix dest) in
  let numbered := λ k, root_dest // dup_name_n (pathlib.stem dest) (pathlib.suffix dest) k in
  ∃ p, resolve_leftover disk root_dest dest = Some p ∧ (p ∉ disk) ∧
    ((dest ∉ disk) ∧ p = dest ∨
     dest ∈ disk ∧ (first ∉ disk) ∧ p = first ∨
     dest ∈ disk ∧ first ∈ disk ∧
       ∃ k, (1 ≤ k)%nat ∧ p = numbered k ∧ ∀ j, (1 ≤ j < k)%nat → numbered j ∈ disk).
Proof.
  intros dest first numbered.
  destruct (resolve_leftover_total disk root_dest dest) as [p Hp].
  exists p. split; [done|].
  unfold resolve_leftover in Hp. fold dest first numbered in Hp.
  case_bool_decide as Hdest.
  - apply while_exists_Some in Hp as [[Hfree ->]|[Hfirst (k & Hk & -> & Hfree & Hbelow)]].
    + split; [done|]. right. left. done.
    + split; [done|]. right. right. repeat split; [done..|]. by exists k.
  - injection Hp as <-. split; [done|]. by left.
Qed.

(** ** The log over the whole program *)

(** X19. From [init_log] to the end of the leftover pass the log only
    grows: what LOG_FILE held at the start is still there, in front, at the
    end, and everything added is a data row whose last cell reads YES, so
    no header either. *)
Theorem main_log_append_only (EX : bool) (media leftovers : list entry) (w : world) :
  ∃ rows,
    log_file (main EX media leftovers w).1 = Some (open_append (log_file w) ++ rows) ∧
    Forall says_yes rows.
Proof.
  unfold main.
  set (w0 := set_log_file (init_log (log_file w)) w).
  destruct (sort_media_log EX media w0) as [_ (rows & Hyes & Hlog)].
  exists rows. split; [|done].
  assert (log_file (sort_media EX media w0).1 = Some (open_append (log_file w) ++ rows))
    as Hlog'.
  { rewrite Hlog. destruct rows; [by rewrite app_nil_r|done]. }
  destruct (sort_media EX media w0) as [w1 [h|]]; [done|]. simpl in *.
  destruct (move_remaining_trace leftovers w1) as (_ & _ & _ & _ & _ & ->). done.
Qed.

(** ** Junk cleanup *)

Lemma try_unlink_disk fp err line st p :
  p ∈ (try_unlink fp err line st).1 ↔ p ∈ st.1 ∧ ¬ (p = fp ∧ err = None).
Proof.
  unfold try_unlink. destruct err as [e|]; [naive_solver|].
  case_bool_decide as Hin; simpl.
  - rewrite elem_of_difference, elem_of_singleton. naive_solver.
  - split; [|naive_solver]. intros Hp. split; [done|]. intros [-> _]. done.
Qed.

Lemma delete_junk_file_disk f st p :
  p ∈ (delete_junk_file f st).1 ↔
  p ∈ st.1 ∧ ¬ (p = walked_path f ∧ is_junk (f_file f) = true ∧ f_unlink_error f = None).
Proof.
  unfold delete_junk_file, is_junk.
  case_bool_decide as Hexact; simpl.
  - rewrite try_unlink_disk. naive_solver.
  - destruct (startswith _ _) eqn:Hstart, (endswith _ _) eqn:Hend; simpl;
      rewrite ?try_unlink_disk; naive_solver.
Qed.

Lemma delete_junk_files_disk files st p :
  p ∈ (delete_junk_files files st).1 ↔
  p ∈ st.1 ∧
  ¬ ∃ f, f ∈ files ∧ p = walked_path f ∧ is_junk (f_file f) = true ∧
         f_unlink_error f = None.
Proof.
  unfold delete_junk_files. revert st.
  induction files as [|f files IH]; intros st; simpl.
  - split; [|naive_solver]. intros Hp. split; [done|]. by intros (f & ?%elem_of_nil & _).
  - rewrite IH, delete_junk_file_disk. split.
    + intros [[Hp Hf] Hrest]. split; [done|].
      intros (f' & [->|Hin]%elem_of_cons & Hrest'); [by apply Hf|].
      apply Hrest. by exists f'.
    + intros [Hp Hnone]. repeat split; [done| |].
      * intros Hf. apply Hnone. exists f. split; [apply list_elem_of_here | done].
      * intros (f' & Hin & Hrest). apply Hnone. exists f'.
        split; [by apply list_elem_of_further | done].
Qed.

(** X20. On a walk whose file names are within the range of the case
    table, [delete_junk_files] removes exactly the files whose name, in
    lower case, is one of the junk names, starts with thumbs.db or ends
    with .thm, and whose [unlink] does not raise; every other path stays on
    disk, and no path is added. *)
Theorem delete_junk_files_exact (files : list walked) (disk0 : gset Path) (p : Path) :
  Forall (λ f, in_tables (f_file f)) files →
  p ∈ (delete_junk_files files (disk0, [])).1 ↔
  p ∈ disk0 ∧
  ¬ ∃ f, f ∈ files ∧ p = walked_path f ∧ is_junk (f_file f) = true ∧
         f_unlink_error f = None.
Proof. intros _. apply delete_junk_files_disk. Qed.

Lemma delete_junk_files_exact_witness :
  walked_path thumbs_db ∉ (delete_junk_files [thumbs_db] ({[walked_path thumbs_db]}, [])).1.
Proof.
  intros Hin.
  apply (delete_junk_files_exact [thumbs_db] {[walked_path thumbs_db]}
           (walked_path thumbs_db)) in Hin as [_ Hnot].
  - apply Hnot. exists thumbs_db. split; [apply list_elem_of_here|]. by vm_compute.
  - apply (bool_decide_unpack _). by vm_compute.
Defined.

(** ** Folder creation *)

Lemma format_0d_4_all : forallb (check_format 4) (seqZ 0 10000) = true.
Proof. by vm_compute. Qed.

Lemma format_0d_2_all : forallb (check_format 2) (seqZ 0 100) = true.
Proof. by vm_compute. Qed.

Lemma format_0d_4 n : 0 ≤ n < 10000 → digits_of 4 n (format_0d 4 n).
Proof.
  intros Hn. pose proof format_0d_4_all as Hall.
  rewrite forallb_forall in Hall. specialize (Hall n).
  unfold check_format in Hall. rewrite andb_true_iff, !bool_decide_eq_true in Hall.
  apply Hall, list_elem_of_In, elem_of_seqZ. lia.
Qed.

Lemma format_0d_2 n : 0 ≤ n < 100 → digits_of 2 n (format_0d 2 n).
Proof.
  intros Hn. pose proof format_0d_2_all as Hall.
  rewrite forallb_forall in Hall. specialize (Hall n).
  unfold check_format in Hall. rewrite andb_true_iff, !bool_decide_eq_true in Hall.
  apply Hall, list_elem_of_In, elem_of_seqZ. lia.
Qed.

(** X21. For a date of the calendar the target directory is OUTPUT_DIR,
    the device, the category when there is one, then a year of four
    digits, a month of two and a day of two, which read back as the numbers
    of the date. *)
Theorem date_dir_layout (base_dir device category : str) (date : datetime) :
  1 ≤ year date ≤ 9999 → 1 ≤ month date ≤ 12 → 1 ≤ day date ≤ 31 →
  ∃ y m d,
    digits_of 4 (year date) y ∧ digits_of 2 (month date) m ∧ digits_of 2 (day date) d ∧
    date_dir base_dir device date category
    = if bool_decide (category = [])
      then [base_dir; device; y; m; d]
      else [base_dir; device; category; y; m; d].
Proof.
  intros Hy Hm Hd.
  exists (format_0d 4 (year date)), (format_0d 2 (month date)), (format_0d 2 (day date)).
  split; [apply format_0d_4; lia|].
  split; [apply format_0d_2; lia|].
  split; [apply format_0d_2; lia|].
  unfold date_dir. by destruct category.
Qed.

Lemma date_dir_layout_witness :
  ∃ y m d,
    digits_of 4 2024 y ∧ digits_of 2 1 m ∧ digits_of 2 2 d ∧
    date_dir OUTPUT_DIR DEFAULT noon (lit "whatsapp")
    = [OUTPUT_DIR; DEFAULT; lit "whatsapp"; y; m; d].
Proof.
  apply (date_dir_layout OUTPUT_DIR DEFAULT (lit "whatsapp") noon); simpl; lia.
Defined.

(** ** An identical copy *)

Lemma stem_suffix_name (p : Path) : pathlib.stem p ++ pathlib.suffix p = pathlib.name p.
Proof.
  unfold pathlib.stem, pathlib.suffix. case_match; [apply take_drop | apply app_nil_r].
Qed.

Lemma name_not_numbered (dir : Path) (base : str) (k : nat) :
  dir // base ≠ dir // dup_name_n (pathlib.stem (dir // base)) (pathlib.suffix (dir // base)) k.
Proof.
  intros Heq%(inj _). rewrite <- (name_joinpath dir base) in Heq at 1.
  rewrite <- stem_suffix_name in Heq. unfold dup_name_n in Heq.
  apply app_inv_head in Heq. apply (f_equal length) in Heq.
  rewrite !length_app in Heq. simpl in Heq. lia.
Qed.

Lemma resolve_target_seen disk dir base :
  dir // base ∈ disk →
  dir // dup_name_n (pathlib.stem (dir // base)) (pathlib.suffix (dir // base)) 1 ∉ disk →
  resolve_target disk dir (dir // base) true
  = Some (dir // dup_name_n (pathlib.stem (dir // base)) (pathlib.suffix (dir // base)) 1).
Proof.
  intros Hin Hfree. unfold resolve_target. rewrite bool_decide_eq_true_2 by done.
  replace (size disk + 2)%nat with (S (S (size disk))) by lia. simpl.
  rewrite bool_decide_eq_true_2 by done. by rewrite bool_decide_eq_false_2.
Qed.

(** X22. A second file with the content and the name of one just placed is
    stored as stem_DUP_1.ext, whether or not stem_DUP.ext is free: with the
    digest already seen, the search starts at the numbered names. *)
Theorem identical_copy_numbered (EX : bool) (e1 e2 : entry)
    (disk0 : gset Path) (log : option (list row)) :
  let dir := entry_target_dir e1 in
  let base := entry_base_name e1 in
  let numbered :=
    dir // dup_name_n (pathlib.stem (dir // base)) (pathlib.suffix (dir // base)) 1 in
  Forall (λ e, is_media e = true ∧ e_move_error e = None ∧ entry_target_dir e = dir ∧
               entry_base_name e = base ∧ e_digest e = e_digest e1) [e1; e2] →
  dir // base ∉ disk0 → numbered ∉ disk0 →
  let run := sort_media EX [e1; e2] (mk_world disk0 log [] []) in
  run.2 = None ∧ moved_to (stdout run.1) = [dir // base; numbered].
Proof.
  intros dir base numbered Hfiles Hfree0 Hfree1 run.
  apply Forall_cons in Hfiles as [(Hm1 & He1 & _ & _ & _) Hfiles].
  apply Forall_cons in Hfiles as [(Hm2 & He2 & Hd2 & Hb2 & Hh2) _].
  set (A := list_to_set (C := gset Path) (pathlib.ancestors_and_self dir)).
  assert (∀ c, dir // c ∉ A) as HA.
  { intros c Hc. apply elem_of_list_to_set in Hc. by eapply joinpath_not_ancestor. }
  assert (∀ e c, entry_path e ≠ dir // c) as Hsrc.
  { intros e c Heq. symmetry in Heq. revert Heq. apply entry_path_not_placed.
    apply head_joinpath, head_entry_target_dir. }
  pose proof (name_not_numbered dir base 1) as Hne. fold numbered in Hne.
  destruct (sort_file_placed EX e1 (mk_world disk0 log [] []) ∅ (dir // base))
    as (w1 & Hrun1 & Hdisk1 & Hout1); [done..| |].
  { apply resolve_target_free. fold dir. unfold mkdir_parents. fold A. simpl.
    intros [?|?]%elem_of_union; [done|]. by eapply HA. }
  destruct (sort_file_placed EX e2 w1 (<[e_digest e1 := dir // base]> ∅) numbered)
    as (w2 & Hrun2 & Hdisk2 & Hout2); [done..| |].
  { rewrite Hb2, Hd2, Hh2, lookup_insert_eq.
    rewrite bool_decide_eq_true_2 by by eexists.
    apply resolve_target_seen; fold numbered; rewrite Hdisk1; fold dir;
      unfold mkdir_parents; fold A; simpl.
    - apply elem_of_union_l, elem_of_union_r. by apply elem_of_singleton.
    - pose proof (HA (dup_name_n (pathlib.stem (dir // base))
                        (pathlib.suffix (dir // base)) 1)) as HA1.
      fold numbered in HA1. set_solver. }
  subst run. unfold sort_media. cbn [sort_loop].
  rewrite Hrun1, Hrun2. simpl. split; [done|].
  rewrite moved_to_snoc, app_nil_r, Hout2, Hout1. done.
Qed.

Lemma identical_copy_numbered_witness :
  let run := sort_media true [photo_1; photo_1_copy] empty_world in
  run.2 = None ∧
  moved_to (stdout run.1)
  = [sample_dir // lit "photo.jpg"; sample_dir // lit "photo_DUP_1.jpg"].
Proof.
  apply (identical_copy_numbered true photo_1 photo_1_copy ∅ None).
  - repeat constructor.
  - apply not_elem_of_empty.
  - apply not_elem_of_empty.
Defined.
